(** * UMLS relationship analysis: relation parser, cycle detector and
      broader-than violation detector

    A shallow embedding of [umls_relationship_analysis.py].  The parser
    ([parse_umls]), the depth-first cycle detector ([detect_cycles] with
    its helpers [normalize_cycle] and [validate_cycle]) and the violation
    detector ([detect_broader_than_violations]) are translated function by
    function.  Python sets are [gset]s, the [Counter] is a [gmap], Python
    lists are lists, and the mutable state shared by the recursive search
    is threaded explicitly. *)

From stdpp Require Import gmap list sorting.
From Stdlib Require Import NArith.
From Stdlib Require String Ascii.
Import String.StringSyntax.

#[local] Set Warnings "-clear-no-such-hyp".

(** ** Python values *)

(** A Python [str] is a sequence of Unicode code points. *)
Abbreviation str := (list N).

(** Literals: [py "CHD"] is the [str] with those (Latin-1) characters. *)
Definition py (s : String.string) : str :=
  map Ascii.N_of_ascii (String.list_ascii_of_string s).
Arguments py s%_string_scope.

(** Exceptions the modelled code can raise. *)
Inductive exn : Type :=
  | ValueError | KeyError | IndexError | NetworkXError | NetworkXNoPath.

(** Outcome of a computation: a value, a raised exception, or (for the
    recursive searches only) exhaustion of the recursion budget of the
    model. *)
Inductive res (A : Type) : Type :=
  | Ok (a : A)
  | Raise (e : exn)
  | OutOfFuel.
Arguments Ok {A} a.
Arguments Raise {A} e.
Arguments OutOfFuel {A}.

Global Instance res_ret : MRet res := @Ok.
Global Instance res_bind : MBind res := λ A B f m,
  match m with
  | Ok a => f a
  | Raise e => Raise e
  | OutOfFuel => OutOfFuel
  end.

(** [for x in l: body] over a state, stopping at the first exception. *)
Fixpoint for_each {A S : Type} (body : A → S → res S) (l : list A) (s : S)
  : res S :=
  match l with
  | [] => Ok s
  | x :: l' => s' ← body x s; for_each body l' s'
  end.

(** ** String operations used by the parser *)

(** [str.isspace] on one code point: the characters Python's [strip()]
    removes. *)
Definition is_space (c : N) : bool :=
  ((9 <=? c) && (c <=? 13) || (28 <=? c) && (c <=? 32)
   || (c =? 133) || (c =? 160) || (c =? 5760)
   || (8192 <=? c) && (c <=? 8202)
   || (c =? 8232) || (c =? 8233) || (c =? 8239) || (c =? 8287)
   || (c =? 12288))%N.

Fixpoint lstrip (s : str) : str :=
  match s with
  | [] => []
  | c :: s' => if is_space c then lstrip s' else s
  end.

Definition rstrip (s : str) : str := reverse (lstrip (reverse s)).

(** [s.strip()] *)
Definition strip (s : str) : str := rstrip (lstrip s).

(** [s.split(sep)] for a one-character separator: always at least one
    field, empty fields kept. *)
Fixpoint split (sep : N) (s : str) : list str :=
  match s with
  | [] => [[]]
  | c :: s' =>
      if decide (c = sep) then [] :: split sep s'
      else match split sep s' with
           | f :: fs => (c :: f) :: fs
           | [] => [[c]]
           end
  end.

(** [s.startswith(p)] *)
Fixpoint startswith (p s : str) : bool :=
  match p, s with
  | [], _ => true
  | _ :: _, [] => false
  | a :: p', b :: s' => bool_decide (a = b) && startswith p' s'
  end.

Definition pipe : N := 124.
Definition CHD : str := py "CHD".
Definition PAR : str := py "PAR".
Definition RB : str := py "RB".
Definition RN : str := py "RN".

(** ** The relation parser *)

Abbreviation edge := (str * str)%type.

(** The five accumulators of [parse_umls]. *)
Record parse_state : Type := ParseState {
  parent_child_edges : gset edge;
  broader_than_edges : gset edge;
  relationship_types : gset str;
  duplicate_edges : gmap edge nat;
  self_loops : gset (str * str)
}.

Definition parse_init : parse_state :=
  ParseState ∅ ∅ ∅ ∅ ∅.

(** [parts[i]] *)
Definition item (parts : list str) (i : nat) : res str :=
  match parts !! i with
  | Some x => Ok x
  | None => Raise IndexError
  end.

(** [duplicate_edges[edge] += 1] on a [Counter]: a missing key counts 0. *)
Definition counter_incr (e : edge) (m : gmap edge nat) : gmap edge nat :=
  <[e := S (default 0 (m !! e))]> m.

(** Lines 60-86: what the loop body does once the three fields are
    extracted. *)
Definition process_fields (source rel target : str) (st : parse_state)
  : parse_state :=
  let types := {[rel]} ∪ relationship_types st in
  if decide (source = target) then
    ParseState (parent_child_edges st) (broader_than_edges st) types
               (duplicate_edges st) ({[(source, rel)]} ∪ self_loops st)
  else if decide (rel ∈ [CHD; PAR; RB; RN]) then
    let e : option edge :=
      if decide (rel = CHD) then Some (target, source)
      else if decide (rel = PAR) then Some (source, target)
      else if decide (rel = RB) then Some (source, target)
      else if decide (rel = RN) then Some (target, source)
      else None in
    match e with
    | Some e =>
        let dup := counter_incr e (duplicate_edges st) in
        if decide (rel ∈ [CHD; PAR]) then
          ParseState ({[e]} ∪ parent_child_edges st) (broader_than_edges st)
                     types dup (self_loops st)
        else
          ParseState (parent_child_edges st) ({[e]} ∪ broader_than_edges st)
                     types dup (self_loops st)
    | None =>
        ParseState (parent_child_edges st) (broader_than_edges st) types
                   (duplicate_edges st) (self_loops st)
    end
  else
    ParseState (parent_child_edges st) (broader_than_edges st) types
               (duplicate_edges st) (self_loops st).

(** Lines 52-86: the body of the [try] block. *)
Definition try_body (line : str) (st : parse_state) : res parse_state :=
  let parts := split pipe (strip line) in
  if decide (length parts < 5) then Ok st
  else
    p0 ← item parts 0; let source := strip p0 in
    p4 ← item parts 4; let target := strip p4 in
    p3 ← item parts 3; let rel := strip p3 in
    Ok (process_fields source rel target st).

(** Lines 48-91: one iteration of the loop over the lines of the file.
    An exception of the [try] block is logged and the line skipped. *)
Definition parse_line (line : str) (st : parse_state) : parse_state :=
  if startswith (py "#") line || bool_decide (strip line = []) then st
  else match try_body line st with
       | Ok st' => st'
       | _ => st
       end.

(** The loop of [parse_umls] over the lines of the file. *)
Definition parse_lines (lines : list str) : parse_state :=
  foldl (λ st line, parse_line line st) parse_init lines.

(** [list(s)] and [for x in s] enumerate a set in an order the
    interpreter chooses (it depends on the hashes of the elements, which
    for strings differ from one process to the next); an enumeration
    order is any function that lists exactly the elements of the set. *)
Definition set_order : Type :=
  ∀ (A : Type) (EqA : EqDecision A) (CntA : Countable A), gset A → list A.
Definition valid_order (iter : set_order) : Prop :=
  ∀ (A : Type) (EqA : EqDecision A) (CntA : Countable A) (s : gset A),
    iter A EqA CntA s ≡ₚ elements s.

(** [parse_umls]: the value returned for the lines of an existing file. *)
Definition parse_umls (iter : set_order) (lines : list str)
  : list edge * list edge * gset str * gmap edge nat * gset (str * str) :=
  let st := parse_lines lines in
  (iter _ _ _ (parent_child_edges st), iter _ _ _ (broader_than_edges st),
   relationship_types st, duplicate_edges st, self_loops st).

(** *** The record a line denotes (section 4.1 of the specification)

    Blank lines and lines beginning with [#] carry no record, nor do lines
    with fewer than five [|]-separated fields; otherwise field 0 is the
    source, field 3 the relation-type code and field 4 the target, each
    trimmed. *)
Definition record_of (line : str) : option (str * str * str) :=
  if startswith (py "#") line then None
  else if decide (strip line = []) then None
  else match split pipe (strip line) with
       | f0 :: _ :: _ :: f3 :: f4 :: _ => Some (strip f0, strip f3, strip f4)
       | _ => None
       end.

(** The orientation table of section 4.1, for a record [(source, code,
    target)] that is not a self-loop. *)
Definition oriented (r : str * str * str) : option edge :=
  let '(source, rel, target) := r in
  if decide (source = target) then None
  else if decide (rel = CHD) then Some (target, source)
  else if decide (rel = PAR) then Some (source, target)
  else if decide (rel = RB) then Some (source, target)
  else if decide (rel = RN) then Some (target, source)
  else None.

(** ** Ordering of strings: [<] on [str], [sorted] and [min] *)

(** Python compares strings lexicographically by code point. *)
Fixpoint str_compare (a b : str) : comparison :=
  match a, b with
  | [], [] => Eq
  | [], _ :: _ => Lt
  | _ :: _, [] => Gt
  | x :: a', y :: b' =>
      match (x ?= y)%N with
      | Eq => str_compare a' b'
      | c => c
      end
  end.

Definition str_lt (a b : str) : Prop := str_compare a b = Lt.
Definition str_le (a b : str) : Prop := str_compare a b ≠ Gt.

Global Instance str_lt_dec : RelDecision str_lt.
Proof. intros a b. unfold str_lt. apply _. Defined.
Global Instance str_le_dec : RelDecision str_le.
Proof. intros a b. unfold str_le. apply _. Defined.

(** [sorted(l)] *)
Definition sorted (l : list str) : list str := merge_sort str_le l.

(** [min(l)]: the first least element; [ValueError] on an empty list. *)
Definition py_min (l : list str) : res str :=
  match l with
  | [] => Raise ValueError
  | x :: l' => Ok (foldl (λ m y, if decide (str_lt y m) then y else m) x l')
  end.

(** [l.index(x)]: the first position of [x]; [ValueError] if absent. *)
Fixpoint index (x : str) (l : list str) : res nat :=
  match l with
  | [] => Raise ValueError
  | y :: l' => if decide (y = x) then Ok 0 else i ← index x l'; Ok (S i)
  end.

(** [l.pop()] on the list itself (the popped value is not used). *)
Definition pop (l : list str) : res (list str) :=
  match l with
  | [] => Raise IndexError
  | _ => Ok (take (length l - 1) l)
  end.

(** [s.remove(x)] on a set: [KeyError] if absent. *)
Definition set_remove (x : str) (s : gset str) : res (gset str) :=
  if decide (x ∈ s) then Ok (s ∖ {[x]}) else Raise KeyError.

(** ** Directed graphs *)

(** Modelled from the spec: the library class [networkx.DiGraph], which is
    not part of the repository.  A graph keeps its nodes and its edges in
    insertion order, without duplicates; adding an edge adds its end
    points.  [neighbors] lists the successors of a node in the order their
    edges were added and raises on a node that is absent. *)
Record DiGraph : Type := Graph {
  g_nodes : list str;
  g_edges : list edge
}.

Definition empty_graph : DiGraph := Graph [] [].

Definition add_node (n : str) (g : DiGraph) : DiGraph :=
  if decide (n ∈ g_nodes g) then g else Graph (g_nodes g ++ [n]) (g_edges g).

Definition add_edge (e : edge) (g : DiGraph) : DiGraph :=
  let g' := add_node e.2 (add_node e.1 g) in
  if decide (e ∈ g_edges g') then g'
  else Graph (g_nodes g') (g_edges g' ++ [e]).

Definition add_edges_from (es : list edge) (g : DiGraph) : DiGraph :=
  foldl (λ g e, add_edge e g) g es.

Definition has_edge (g : DiGraph) (u v : str) : bool :=
  bool_decide ((u, v) ∈ g_edges g).

Definition successors (g : DiGraph) (u : str) : list str :=
  (filter (λ e, e.1 = u) (g_edges g)).*2.

Definition neighbors (g : DiGraph) (n : str) : res (list str) :=
  if decide (n ∈ g_nodes g) then Ok (successors g n) else Raise NetworkXError.

(** The class invariant: the end points of every edge are nodes. *)
Definition wf_graph (g : DiGraph) : Prop :=
  ∀ u v, (u, v) ∈ g_edges g → u ∈ g_nodes g ∧ v ∈ g_nodes g.

Definition no_self_loops (g : DiGraph) : Prop :=
  ∀ u, (u, u) ∉ g_edges g.

(** ** The cycle detector *)

(** [normalize_cycle] *)
Definition normalize_cycle (cycle : list str) : res (list str) :=
  m ← py_min cycle;
  min_idx ← index m cycle;
  Ok (drop min_idx cycle ++ take min_idx cycle).

(** [validate_cycle] *)
Definition validate_cycle (g : DiGraph) (cycle : list str) : bool :=
  forallb (λ i,
    match cycle !! i, cycle !! ((i + 1) `mod` length cycle) with
    | Some source, Some target => has_edge g source target
    | _, _ => false
    end) (seq 0 (length cycle)).

(** One entry of the result: the dictionary with keys ["nodes"] and
    ["paths"]. *)
Record cycle_info : Type := CycleInfo {
  ci_nodes : list str;
  ci_paths : list (list str)
}.

Global Instance cycle_info_eq_dec : EqDecision cycle_info.
Proof. solve_decision. Defined.

Definition cycle_paths (cycle : list str) : list (list str) :=
  (λ i, [cycle !!! i; cycle !!! ((i + 1) `mod` length cycle)])
    <$> seq 0 (length cycle).

(** The variables of [detect_cycles] captured by [dfs_cycle], and the list
    object [path] every recursive call shares. *)
Record dfs_state : Type := DfsState {
  detailed_cycles : list cycle_info;
  visited : gset str;
  rec_stack : gset str;
  unique_cycles : gset (list str);
  path : list str
}.

(** [dfs_cycle]; [fuel] bounds the depth of the recursion (the recursion
    limit of the interpreter is not modelled). *)
Fixpoint dfs_cycle (g : DiGraph) (fuel : nat) (node : str) (st : dfs_state)
  : res dfs_state :=
  match fuel with
  | 0 => OutOfFuel
  | S fuel' =>
      if decide (node ∈ rec_stack st) then
        cycle_start ← index node (path st);
        let cycle := drop cycle_start (path st) in
        normalized ← normalize_cycle cycle;
        if bool_decide (normalized ∉ unique_cycles st) && validate_cycle g cycle
        then
          Ok (DfsState
                (detailed_cycles st ++ [CycleInfo cycle (cycle_paths cycle)])
                (visited st) (rec_stack st)
                ({[normalized]} ∪ unique_cycles st) (path st))
        else Ok st
      else if decide (node ∈ visited st) then Ok st
      else
        let st1 := DfsState (detailed_cycles st) ({[node]} ∪ visited st)
                            ({[node]} ∪ rec_stack st) (unique_cycles st)
                            (path st ++ [node]) in
        nbrs ← neighbors g node;
        st2 ← for_each (dfs_cycle g fuel') (sorted nbrs) st1;
        path' ← pop (path st2);
        rec_stack' ← set_remove node (rec_stack st2);
        Ok (DfsState (detailed_cycles st2) (visited st2) rec_stack'
                     (unique_cycles st2) path')
  end.

(** [detect_cycles]; the wall-clock duration is left out.  No path of the
    search is longer than the number of nodes, which bounds the depth. *)
Definition detect_cycles (g : DiGraph) : res (list cycle_info) :=
  let sorted_nodes := sorted (g_nodes g) in
  st ← for_each (λ node st,
          if decide (node ∉ visited st) then
            dfs_cycle g (S (length (g_nodes g))) node
              (DfsState (detailed_cycles st) (visited st) (rec_stack st)
                        (unique_cycles st) [])
          else Ok st)
        sorted_nodes (DfsState [] ∅ ∅ ∅ []);
  Ok (detailed_cycles st).

(** ** The violation detector *)

(** Modelled from the spec: the library functions [networkx.descendants]
    and [networkx.shortest_path], which are not part of the repository.
    Both follow a breadth-first search from the source: [bfs_tree] returns,
    in order of discovery, every node [x] reachable from the source
    together with the nodes that lead to it, from its predecessor back to
    the source.  The descendants of a node are the nodes reachable from
    it, the node itself excluded; a shortest path is the path of the
    search tree, and [NetworkXNoPath] is raised when there is none. *)
Abbreviation tree_entry := (str * list str)%type.

(** The successors [ws] of [x] not seen before, each with its way back. *)
Fixpoint enqueue (x : str) (back : list str) (ws : list str)
    (seen : list str) : list tree_entry :=
  match ws with
  | [] => []
  | w :: ws' =>
      if decide (w ∈ seen) then enqueue x back ws' seen
      else (w, x :: back) :: enqueue x back ws' (w :: seen)
  end.

Fixpoint bfs_tree (g : DiGraph) (fuel : nat) (done queue : list tree_entry)
  : res (list tree_entry) :=
  match queue with
  | [] => Ok done
  | (x, back) :: queue' =>
      match fuel with
      | 0 => OutOfFuel
      | S fuel' =>
          let new := enqueue x back (successors g x) ((done ++ queue).*1) in
          bfs_tree g fuel' (done ++ [(x, back)]) (queue' ++ new)
      end
  end.

(** Every step settles one node, so the number of nodes bounds the number
    of steps. *)
Definition bfs (g : DiGraph) (source : str) : res (list tree_entry) :=
  if decide (source ∈ g_nodes g)
  then bfs_tree g (length (g_nodes g)) [] [(source, [])]
  else Raise NetworkXError.

Definition descendants (g : DiGraph) (source : str) : res (gset str) :=
  tree ← bfs g source;
  Ok (list_to_set (filter (λ n, n ≠ source) tree.*1)).

Definition shortest_path (g : DiGraph) (source target : str)
  : res (list str) :=
  tree ← bfs g source;
  match list_find (λ e : tree_entry, e.1 = target) tree with
  | Some (_, (x, back)) => Ok (reverse (x :: back))
  | None => Raise NetworkXNoPath
  end.

(** One entry of the result: the dictionary with keys ["source"],
    ["target"] and ["circular_path"]. *)
Record violation : Type := Violation {
  v_source : str;
  v_target : str;
  circular_path : list str
}.

Global Instance violation_eq_dec : EqDecision violation.
Proof. solve_decision. Defined.

(** [d[k]] on a dictionary: [KeyError] if absent. *)
Definition getitem {V} (d : gmap str V) (k : str) : res V :=
  match d !! k with
  | Some v => Ok v
  | None => Raise KeyError
  end.

(** Lines 209-229: the test on one [target] and the [try] block. *)
Definition check_target (g : DiGraph) (descendants_dict : gmap str (gset str))
    (source target : str) (violations : list violation)
  : res (list violation) :=
  back ← getitem descendants_dict target;
  if decide (source ∈ back) then
    match (path_to_target ← shortest_path g source target;
           path_back_to_source ← shortest_path g target source;
           Ok (Violation source target
                 (path_to_target ++ drop 1 path_back_to_source))) with
    | Ok v => Ok (violations ++ [v])
    | Raise NetworkXNoPath => Ok violations
    | Raise e => Raise e
    | OutOfFuel => OutOfFuel
    end
  else Ok violations.

(** [detect_broader_than_violations]; the wall-clock duration is left
    out. *)
Definition detect_broader_than_violations (iter : set_order) (g : DiGraph)
  : res (list violation) :=
  descendants_dict ←
    for_each (λ node (d : gmap str (gset str)),
                ds ← descendants g node; Ok (<[node := ds]> d))
             (g_nodes g) ∅;
  for_each (λ source violations,
              reachable ← getitem descendants_dict source;
              for_each (check_target g descendants_dict source)
                       (iter _ _ _ reachable) violations)
           (g_nodes g) [].

(** ** The two analyses *)

(** [analyze_parent_child_relations], up to the detection of cycles. *)
Definition analyze_parent_child_relations (iter : set_order)
    (lines : list str) : res (list cycle_info) :=
  let '(parent_child, _, _, _, _) := parse_umls iter lines in
  detect_cycles (add_edges_from parent_child empty_graph).

(** [analyze_broader_than_relations], up to the detection of violations. *)
Definition analyze_broader_than_relations (iter : set_order)
    (lines : list str) : res (list violation) :=
  let '(_, broader_than, _, _, _) := parse_umls iter lines in
  detect_broader_than_violations iter (add_edges_from broader_than empty_graph).

(** ** Notions the statements use *)

(** [reach g u v]: [v] is reachable from [u] along edges of [g]. *)
Definition reach (g : DiGraph) : relation str :=
  rtc (λ u v, (u, v) ∈ g_edges g).

(** Every consecutive pair of [p] is an edge of [g]. *)
Fixpoint is_path (g : DiGraph) (p : list str) : Prop :=
  match p with
  | u :: ((v :: _) as p') => (u, v) ∈ g_edges g ∧ is_path g p'
  | _ => True
  end.

(** Every consecutive pair of [c], and the pair from its last node back to
    its first, is an edge of [g]. *)
Definition closed_path (g : DiGraph) (c : list str) : Prop :=
  ∀ i u v, c !! i = Some u → c !! ((i + 1) `mod` length c) = Some v →
           (u, v) ∈ g_edges g.

(** A simple cycle: a non-empty sequence of distinct nodes that is
    closed. *)
Definition simple_cycle (g : DiGraph) (c : list str) : Prop :=
  c ≠ [] ∧ NoDup c ∧ closed_path g c.

(** [c'] is a rotation of [c]. *)
Definition rotation (c c' : list str) : Prop :=
  ∃ k, c' = rotate k c.

(** The two enumeration orders used in examples. *)
Definition iter_elements : set_order := λ A _ _ s, elements s.
Definition iter_reverse : set_order := λ A _ _ s, reverse (elements s).

(** ** Examples *)

Definition A : str := py "A".
Definition B : str := py "B".
Definition C : str := py "C".
Definition D : str := py "D".

(** The line [source|||rel|target|] of a relation file, with its end of
    line. *)
Definition rrf_line (source rel target : str) : str :=
  source ++ py "|||" ++ rel ++ py "|" ++ target ++ py "|" ++ [10%N].

(** ** Invariants of the search *)

(** The canonical form of a cycle, as a total function. *)
Definition canon (c : list str) : list str :=
  match normalize_cycle c with
  | Ok n => n
  | _ => []
  end.

(** The recursion stack holds exactly the nodes of the current path, which
    are distinct nodes of the graph. *)
Definition path_inv (g : DiGraph) (rs : gset str) (p : list str) : Prop :=
  NoDup p ∧ (∀ x, x ∈ rs ↔ x ∈ p) ∧ (∀ x, x ∈ p → x ∈ g_nodes g).

(** Every recorded cycle is a validated, non-empty sequence of distinct
    nodes; the canonical forms of the recorded cycles are pairwise
    different and all belong to [unique_cycles]. *)
Definition cycles_inv (g : DiGraph) (cs : list cycle_info)
    (u : gset (list str)) : Prop :=
  (∀ ci, ci ∈ cs →
     ci_nodes ci ≠ [] ∧ NoDup (ci_nodes ci) ∧
     validate_cycle g (ci_nodes ci) = true ∧
     ci_paths ci = cycle_paths (ci_nodes ci)) ∧
  (∀ ci, ci ∈ cs → canon (ci_nodes ci) ∈ u) ∧
  NoDup ((λ ci, canon (ci_nodes ci)) <$> cs).

(** What a call of [dfs_cycle] leaves behind. *)
Definition dfs_post (g : DiGraph) (st st' : dfs_state) : Prop :=
  cycles_inv g (detailed_cycles st') (unique_cycles st') ∧
  path st' = path st ∧ rec_stack st' = rec_stack st ∧
  visited st ⊆ visited st'.

(** The number of nodes not yet visited: it bounds the depth the search
    can still reach. *)
Definition unvisited (g : DiGraph) (vis : gset str) : nat :=
  length (filter (λ n, n ∉ vis) (g_nodes g)).

(** A way back: every node is a successor of the next one. *)
Fixpoint way_back (g : DiGraph) (l : list str) : Prop :=
  match l with
  | w :: ((x :: _) as l') => (x, w) ∈ g_edges g ∧ way_back g l'
  | _ => True
  end.

(** The invariant of the breadth-first search from [source]: the nodes
    discovered are distinct nodes of the graph, each comes with a way back
    to the source, the source is among them, and every successor of a
    settled node has been discovered. *)
Definition bfs_inv (g : DiGraph) (source : str)
    (done queue : list tree_entry) : Prop :=
  NoDup (done ++ queue).*1 ∧
  (∀ x back, (x, back) ∈ done ++ queue →
     way_back g (x :: back) ∧ last (x :: back) = Some source) ∧
  (∀ x y, x ∈ done.*1 → (x, y) ∈ g_edges g → y ∈ (done ++ queue).*1) ∧
  (∀ x, x ∈ (done ++ queue).*1 → x ∈ g_nodes g) ∧
  source ∈ (done ++ queue).*1.

(** The set [descendants] returns, as a total function. *)
Definition desc_set (g : DiGraph) (n : str) : gset str :=
  match descendants g n with
  | Ok ds => ds
  | _ => ∅
  end.

(** [v] is the entry the detector makes for the pair (source, target). *)
Definition is_violation (g : DiGraph) (source target : str) (v : violation)
  : Prop :=
  source ≠ target ∧ reach g source target ∧ reach g target source ∧
  ∃ p1 p2, shortest_path g source target = Ok p1 ∧
           shortest_path g target source = Ok p2 ∧
           v = Violation source target (p1 ++ drop 1 p2).

(** The specification of one call of [dfs_cycle], for a given recursion
    budget. *)
Definition dfs_spec (g : DiGraph) (fuel : nat) : Prop :=
  ∀ node st,
    node ∈ g_nodes g →
    path_inv g (rec_stack st) (path st) →
    cycles_inv g (detailed_cycles st) (unique_cycles st) →
    unvisited g (visited st) < fuel →
    ∃ st', dfs_cycle g fuel node st = Ok st' ∧ dfs_post g st st'.

(** The graph with the two edges A -> B and B -> A. *)
Definition two_cycle : DiGraph := add_edges_from [(A, B); (B, A)] empty_graph.

(** The graph with the single edge A -> A. *)
Definition self_loop_graph : DiGraph := add_edges_from [(A, A)] empty_graph.

(** The graph with the edges A -> B, B -> A, A -> C and C -> B: its
    simple cycles are A B and A C B. *)
Definition two_cycles_lines : list str :=
  [rrf_line A PAR B; rrf_line B PAR A; rrf_line A PAR C; rrf_line C PAR B].
Definition two_cycles_graph : DiGraph :=
  add_edges_from [(A, B); (B, A); (A, C); (C, B)] empty_graph.

(** The broader-than records A -> B, A -> C, B -> D, C -> D and D -> A:
    from A there are two shortest paths to D. *)
Definition diamond_lines : list str :=
  [rrf_line A RB B; rrf_line A RB C; rrf_line B RB D; rrf_line C RB D;
   rrf_line D RB A].

(** Two graphs with the same nodes and the same edges, inserted in
    whatever order. *)
Definition same_graph (g1 g2 : DiGraph) : Prop :=
  g_nodes g1 ≡ₚ g_nodes g2 ∧ g_edges g1 ≡ₚ g_edges g2.

(** ** Notions for the search on graphs without cycles *)








(** ** The statistics of the two analyses *)

(** The dictionary [stats] of [analyze_parent_child_relations] and of
    [analyze_broader_than_relations]: the total number of relationships
    of the category, the number of cycles or violations found, the
    number of concepts of the graph, the number of self-loops and the
    number of duplicate relationships.  The sixth entry, the detection
    time, is left out. *)
Record statistics : Type := Statistics {
  total_relationships : nat;
  number_found : nat;
  total_concepts : nat;
  number_of_self_loops : nat;
  number_of_duplicate_relationships : nat
}.

(** [sum(1 for count in duplicate_edges.values() if count > 1)] *)
Definition count_duplicates (duplicate_edges : gmap edge nat) : nat :=
  length (filter (λ count, 1 < count) (map_to_list duplicate_edges).*2).

(** [analyze_parent_child_relations]: the cycles and the statistics it
    returns (the files it writes are left out). *)
Definition parent_child_statistics (iter : set_order) (lines : list str)
  : res (list cycle_info * statistics) :=
  let '(parent_child, _, _, duplicates, loops) := parse_umls iter lines in
  let parent_child_graph := add_edges_from parent_child empty_graph in
  parent_child_cycles ← detect_cycles parent_child_graph;
  Ok (parent_child_cycles,
      Statistics (length parent_child) (length parent_child_cycles)
                 (length (g_nodes parent_child_graph)) (size loops)
                 (count_duplicates duplicates)).

(** [analyze_broader_than_relations]: the violations and the statistics
    it returns (the files it writes are left out). *)
Definition broader_than_statistics (iter : set_order) (lines : list str)
  : res (list violation * statistics) :=
  let '(_, broader_than, _, duplicates, loops) := parse_umls iter lines in
  let broader_than_graph := add_edges_from broader_than empty_graph in
  broader_than_violations ←
    detect_broader_than_violations iter broader_than_graph;
  Ok (broader_than_violations,
      Statistics (length broader_than) (length broader_than_violations)
                 (length (g_nodes broader_than_graph)) (size loops)
                 (count_duplicates duplicates)).

(** The concepts that are an end point of an edge of [s]. *)
Definition endpoints (s : gset edge) : gset str :=
  set_map fst s ∪ set_map snd s.

(** The number of lines whose record orients to the edge [e]. *)
Definition occurrences (e : edge) (lines : list str) : nat :=
  length (filter (λ line, record_of line ≫= oriented = Some e) lines).

(** The edges of either category that two records or more orient to. *)
Definition duplicated_edges (lines : list str) : gset edge :=
  filter (λ e, 2 ≤ occurrences e lines)
         (parent_child_edges (parse_lines lines)
          ∪ broader_than_edges (parse_lines lines)).

(* ================================================================== *)
(** * Properties of the parser *)

Lemma codes_distinct :
  CHD ≠ PAR ∧ CHD ≠ RB ∧ CHD ≠ RN ∧ PAR ≠ RB ∧ PAR ≠ RN ∧ RB ≠ RN.
Proof. repeat split; by vm_compute. Qed.

Lemma is_space_pipe c : is_space c = true → c ≠ pipe.
Proof. intros Hc ->. by vm_compute in Hc. Qed.

Lemma split_length sep s :
  length (split sep s) = S (length (filter (λ c, c = sep) s)).
Proof.
  induction s as [|c s IH]; [done|]. simpl.
  rewrite filter_cons. destruct (decide (c = sep)); simpl.
  - by rewrite IH.
  - destruct (split sep s); simpl in *; lia.
Qed.

Lemma lstrip_pipes s :
  filter (λ c, c = pipe) (lstrip s) = filter (λ c, c = pipe) s.
Proof.
  induction s as [|c s IH]; [done|]. simpl.
  destruct (is_space c) eqn:Hc; [|done].
  rewrite filter_cons_False; [done|]. by apply is_space_pipe.
Qed.

Lemma strip_pipes s :
  length (filter (λ c, c = pipe) (strip s))
  = length (filter (λ c, c = pipe) s).
Proof.
  unfold strip, rstrip.
  rewrite <-(lstrip_pipes s).
  generalize (lstrip s); intros l.
  rewrite filter_reverse, length_reverse, lstrip_pipes.
  by rewrite filter_reverse, length_reverse.
Qed.

Lemma split_strip_length line :
  length (split pipe (strip line)) = length (split pipe line).
Proof. by rewrite !split_length, strip_pipes. Qed.

(** The loop body processes exactly the record the line denotes. *)
Lemma parse_line_record line st :
  parse_line line st =
    match record_of line with
    | Some (source, rel, target) => process_fields source rel target st
    | None => st
    end.
Proof.
  unfold parse_line, record_of, try_body.
  destruct (startswith (py "#") line); [done|]. simpl.
  destruct (decide (strip line = [])) as [Hb|Hb].
  { by rewrite bool_decide_eq_true_2. }
  rewrite bool_decide_eq_false_2 by done.
  destruct (split pipe (strip line)) as [|f0 [|f1 [|f2 [|f3 [|f4 fs]]]]];
    simpl; done.
Qed.

Lemma try_body_ok line st : ∃ st', try_body line st = Ok st'.
Proof.
  unfold try_body.
  destruct (split pipe (strip line)) as [|f0 [|f1 [|f2 [|f3 [|f4 fs]]]]];
    simpl; eauto.
Qed.

Lemma parse_lines_snoc lines line :
  parse_lines (lines ++ [line]) = parse_line line (parse_lines lines).
Proof. unfold parse_lines. by rewrite foldl_app. Qed.

Lemma process_fields_parent_child source rel target st e :
  e ∈ parent_child_edges (process_fields source rel target st) ↔
  e ∈ parent_child_edges st ∨
  (source ≠ target ∧
   ((rel = CHD ∧ e = (target, source)) ∨ (rel = PAR ∧ e = (source, target)))).
Proof.
  destruct codes_distinct as (?&?&?&?&?&?).
  unfold process_fields.
  repeat (case_decide; simpl); subst; set_solver.
Qed.

Lemma process_fields_broader_than source rel target st e :
  e ∈ broader_than_edges (process_fields source rel target st) ↔
  e ∈ broader_than_edges st ∨
  (source ≠ target ∧
   ((rel = RB ∧ e = (source, target)) ∨ (rel = RN ∧ e = (target, source)))).
Proof.
  destruct codes_distinct as (?&?&?&?&?&?).
  unfold process_fields.
  repeat (case_decide; simpl); subst; set_solver.
Qed.

Lemma process_fields_self_loops source rel target st p :
  p ∈ self_loops (process_fields source rel target st) ↔
  p ∈ self_loops st ∨ (source = target ∧ p = (source, rel)).
Proof.
  unfold process_fields.
  repeat (case_decide; simpl); subst; set_solver.
Qed.

Lemma process_fields_counter source rel target st e :
  duplicate_edges (process_fields source rel target st) !! e =
    if decide (oriented (source, rel, target) = Some e)
    then Some (S (default 0 (duplicate_edges st !! e)))
    else duplicate_edges st !! e.
Proof.
  destruct codes_distinct as (?&?&?&?&?&?).
  unfold process_fields, oriented, counter_incr.
  repeat (case_decide; simpl); simplify_eq;
    rewrite ?lookup_insert_eq; try done;
    try (rewrite lookup_insert_ne by congruence; done);
    try (exfalso; set_solver).
Qed.

Lemma edge_sets_spec (lines : list str) (e : edge) :
  (e ∈ parent_child_edges (parse_lines lines) ↔
     ∃ line source rel target,
       line ∈ lines ∧ record_of line = Some (source, rel, target) ∧
       source ≠ target ∧
       ((rel = CHD ∧ e = (target, source)) ∨
        (rel = PAR ∧ e = (source, target)))) ∧
  (e ∈ broader_than_edges (parse_lines lines) ↔
     ∃ line source rel target,
       line ∈ lines ∧ record_of line = Some (source, rel, target) ∧
       source ≠ target ∧
       ((rel = RB ∧ e = (source, target)) ∨
        (rel = RN ∧ e = (target, source)))).
Proof.
  induction lines as [|line lines IH] using rev_ind.
  { split; (split; [set_solver|]); intros (?&?&?&?&Hin&_); set_solver. }
  destruct IH as [IHpc IHbt].
  rewrite parse_lines_snoc, parse_line_record.
  split.
  - destruct (record_of line) as [[[s r] t]|] eqn:Hrec.
    + rewrite process_fields_parent_child, IHpc. split.
      * intros [(l&s'&r'&t'&Hin&?)|?].
        -- exists l, s', r', t'. rewrite elem_of_app. tauto.
        -- exists line, s, r, t. rewrite elem_of_app, list_elem_of_singleton.
           tauto.
      * intros (l&s'&r'&t'&Hin&Hr&?).
        apply elem_of_app in Hin as [Hin|Hin%list_elem_of_singleton].
        -- left. by exists l, s', r', t'.
        -- subst l. rewrite Hrec in Hr. simplify_eq. by right.
    + rewrite IHpc. split.
      * intros (l&s'&r'&t'&Hin&?).
        exists l, s', r', t'. rewrite elem_of_app. tauto.
      * intros (l&s'&r'&t'&Hin&Hr&?).
        apply elem_of_app in Hin as [Hin|Hin%list_elem_of_singleton].
        -- by exists l, s', r', t'.
        -- subst l. by rewrite Hrec in Hr.
  - destruct (record_of line) as [[[s r] t]|] eqn:Hrec.
    + rewrite process_fields_broader_than, IHbt. split.
      * intros [(l&s'&r'&t'&Hin&?)|?].
        -- exists l, s', r', t'. rewrite elem_of_app. tauto.
        -- exists line, s, r, t. rewrite elem_of_app, list_elem_of_singleton.
           tauto.
      * intros (l&s'&r'&t'&Hin&Hr&?).
        apply elem_of_app in Hin as [Hin|Hin%list_elem_of_singleton].
        -- left. by exists l, s', r', t'.
        -- subst l. rewrite Hrec in Hr. simplify_eq. by right.
    + rewrite IHbt. split.
      * intros (l&s'&r'&t'&Hin&?).
        exists l, s', r', t'. rewrite elem_of_app. tauto.
      * intros (l&s'&r'&t'&Hin&Hr&?).
        apply elem_of_app in Hin as [Hin|Hin%list_elem_of_singleton].
        -- by exists l, s', r', t'.
        -- subst l. by rewrite Hrec in Hr.
Qed.

(** C3: the parent-child set holds exactly the edges (target, source) of
    the CHD records and (source, target) of the PAR records, and the
    broader-than set exactly the edges (source, target) of the RB records
    and (target, source) of the RN records, over the records whose source
    differs from their target; no other record contributes an edge. *)
Theorem parse_orientation (lines : list str) (e : edge) :
  (e ∈ parent_child_edges (parse_lines lines) ↔
     ∃ line source rel target,
       line ∈ lines ∧ record_of line = Some (source, rel, target) ∧
       source ≠ target ∧
       ((rel = CHD ∧ e = (target, source)) ∨
        (rel = PAR ∧ e = (source, target)))) ∧
  (e ∈ broader_than_edges (parse_lines lines) ↔
     ∃ line source rel target,
       line ∈ lines ∧ record_of line = Some (source, rel, target) ∧
       source ≠ target ∧
       ((rel = RB ∧ e = (source, target)) ∨
        (rel = RN ∧ e = (target, source)))).
Proof. apply edge_sets_spec. Qed.

Lemma self_loops_spec (lines : list str) (p : str * str) :
  p ∈ self_loops (parse_lines lines) ↔
  ∃ line source rel,
    line ∈ lines ∧ record_of line = Some (source, rel, source) ∧
    p = (source, rel).
Proof.
  induction lines as [|line lines IH] using rev_ind.
  { split; [set_solver|]. intros (?&?&?&Hin&_). set_solver. }
  rewrite parse_lines_snoc, parse_line_record.
  destruct (record_of line) as [[[s r] t]|] eqn:Hrec.
  - rewrite process_fields_self_loops, IH. split.
    + intros [(l&s'&r'&Hin&?)|[-> ->]].
      * exists l, s', r'. rewrite elem_of_app. tauto.
      * exists line, t, r. rewrite elem_of_app, list_elem_of_singleton. tauto.
    + intros (l&s'&r'&Hin&Hr&->).
      apply elem_of_app in Hin as [Hin|Hin%list_elem_of_singleton].
      * left. by exists l, s', r'.
      * subst l. rewrite Hrec in Hr. simplify_eq. by right.
  - rewrite IH. split.
    + intros (l&s'&r'&Hin&?). exists l, s', r'. rewrite elem_of_app. tauto.
    + intros (l&s'&r'&Hin&Hr&->).
      apply elem_of_app in Hin as [Hin|Hin%list_elem_of_singleton].
      * by exists l, s', r'.
      * subst l. by rewrite Hrec in Hr.
Qed.

Lemma edge_sets_loop_free (lines : list str) :
  (∀ u, (u, u) ∉ parent_child_edges (parse_lines lines)) ∧
  (∀ u, (u, u) ∉ broader_than_edges (parse_lines lines)).
Proof.
  split; intros u; destruct (edge_sets_spec lines (u, u)) as [Hpc Hbt].
  - rewrite Hpc. intros (?&?&?&?&?&?&?&[[? ?]|[? ?]]); simplify_eq.
  - rewrite Hbt. intros (?&?&?&?&?&?&?&[[? ?]|[? ?]]); simplify_eq.
Qed.

(** C6: a record whose source equals its target leaves both edge sets (and
    the occurrence counter) as they were, whatever its code, and its pair
    (source, code) is in the self-loop set the parser returns; no edge of
    either set joins a node to itself. *)
Theorem self_loop_exclusion (lines : list str) (line source rel : str) :
  line ∈ lines →
  record_of line = Some (source, rel, source) →
  (∀ st, parent_child_edges (parse_line line st) = parent_child_edges st ∧
         broader_than_edges (parse_line line st) = broader_than_edges st ∧
         duplicate_edges (parse_line line st) = duplicate_edges st) ∧
  (source, rel) ∈ self_loops (parse_lines lines) ∧
  (∀ u, ((u, u) ∉ parent_child_edges (parse_lines lines)) ∧
        ((u, u) ∉ broader_than_edges (parse_lines lines))).
Proof.
  intros Hin Hrec. split; [|split].
  - intros st. rewrite parse_line_record, Hrec. unfold process_fields.
    by rewrite decide_True.
  - apply self_loops_spec. by exists line, source, rel.
  - intros u. destruct (edge_sets_loop_free lines) as [Hpc Hbt].
    split; [apply Hpc|apply Hbt].
Qed.

Lemma self_loop_exclusion_witness :
  rrf_line A CHD A ∈ [rrf_line A CHD A] ∧
  record_of (rrf_line A CHD A) = Some (A, CHD, A) ∧
  (∀ st, parent_child_edges (parse_line (rrf_line A CHD A) st)
           = parent_child_edges st ∧
         broader_than_edges (parse_line (rrf_line A CHD A) st)
           = broader_than_edges st ∧
         duplicate_edges (parse_line (rrf_line A CHD A) st)
           = duplicate_edges st) ∧
  (A, CHD) ∈ self_loops (parse_lines [rrf_line A CHD A]) ∧
  (∀ u, ((u, u) ∉ parent_child_edges (parse_lines [rrf_line A CHD A])) ∧
        ((u, u) ∉ broader_than_edges (parse_lines [rrf_line A CHD A]))).
Proof.
  assert (Hin : rrf_line A CHD A ∈ [rrf_line A CHD A])
    by apply list_elem_of_here.
  assert (Hrec : record_of (rrf_line A CHD A) = Some (A, CHD, A))
    by (vm_compute; reflexivity).
  split; [exact Hin|]. split; [exact Hrec|].
  exact (self_loop_exclusion [rrf_line A CHD A] (rrf_line A CHD A) A CHD
           Hin Hrec).
Defined.

Lemma occurrences_snoc e lines line :
  occurrences e (lines ++ [line]) =
    occurrences e lines +
    (if decide (record_of line ≫= oriented = Some e) then 1 else 0).
Proof.
  unfold occurrences. rewrite filter_app, length_app.
  rewrite filter_cons, filter_nil. by case_decide.
Qed.

Lemma counter_spec (lines : list str) (e : edge) :
  duplicate_edges (parse_lines lines) !! e =
    match occurrences e lines with
    | 0 => None
    | S n => Some (S n)
    end.
Proof.
  induction lines as [|line lines IH] using rev_ind; [done|].
  rewrite parse_lines_snoc, parse_line_record, occurrences_snoc.
  destruct (record_of line) as [[[s r] t]|] eqn:Hrec.
  - rewrite process_fields_counter, IH.
    change (Some (s, r, t) ≫= oriented) with (oriented (s, r, t)).
    destruct (decide (oriented (s, r, t) = Some e)).
    + destruct (occurrences e lines) as [|n]; [done|].
      by rewrite Nat.add_1_r.
    + by rewrite Nat.add_0_r.
  - change (None ≫= oriented) with (@None edge).
    rewrite decide_False by done. by rewrite Nat.add_0_r.
Qed.

(** C7: the counter maps every oriented edge to the number of input
    records, self-loops left out, with code CHD, PAR, RB or RN that orient
    to it, whichever of the two categories they belong to (an edge no
    record orients to has no entry); a record (A, PAR, B) appearing twice
    gives the count 2 while the parent-child set holds (A, B) once. *)
Theorem duplicate_counter (lines : list str) (e : edge) :
  duplicate_edges (parse_lines lines) !! e =
    match occurrences e lines with
    | 0 => None
    | S n => Some (S n)
    end ∧
  duplicate_edges (parse_lines [rrf_line A PAR B; rrf_line A RB B]) !! (A, B)
    = Some 2 ∧
  duplicate_edges (parse_lines [rrf_line A PAR B; rrf_line A PAR B]) !! (A, B)
    = Some 2 ∧
  elements (parent_child_edges
              (parse_lines [rrf_line A PAR B; rrf_line A PAR B])) = [(A, B)].
Proof.
  split; [apply counter_spec|].
  repeat split; by vm_compute.
Qed.

(** C9: a line that is blank, begins with [#] or has fewer than five
    [|]-separated fields changes none of the five accumulators, raises
    nothing, and the lines after it are parsed as if it were absent. *)
Theorem malformed_line_skipped (line : str) :
  (strip line = [] ∨ startswith (py "#") line = true ∨
     length (split pipe line) < 5) →
  (∀ st, parse_line line st = st) ∧
  (∀ st, ∃ st', try_body line st = Ok st') ∧
  (∀ before after,
     parse_lines (before ++ line :: after) = parse_lines (before ++ after)).
Proof.
  intros Hline.
  assert (Hskip : ∀ st, parse_line line st = st).
  { intros st. rewrite parse_line_record.
    assert (record_of line = None) as ->; [|done].
    unfold record_of.
    destruct (startswith (py "#") line) eqn:Hc; [done|].
    case_decide as Hb; [done|].
    destruct Hline as [?|[?|Hlen]]; [done..|].
    rewrite <-split_strip_length in Hlen.
    destruct (split pipe (strip line)) as [|f0 [|f1 [|f2 [|f3 [|f4 fs]]]]];
      simpl in *; try done; lia. }
  split; [done|]. split; [intros st; apply try_body_ok|].
  intros before after. unfold parse_lines.
  rewrite !foldl_app. simpl. by rewrite Hskip.
Qed.

Lemma malformed_line_skipped_witness :
  (strip (py "A|B") = [] ∨ startswith (py "#") (py "A|B") = true ∨
     length (split pipe (py "A|B")) < 5) ∧
  (∀ st, parse_line (py "A|B") st = st) ∧
  (∀ st, ∃ st', try_body (py "A|B") st = Ok st') ∧
  (∀ before after,
     parse_lines (before ++ py "A|B" :: after) = parse_lines (before ++ after)).
Proof.
  assert (Hline : strip (py "A|B") = [] ∨ startswith (py "#") (py "A|B") = true ∨
     length (split pipe (py "A|B")) < 5).
  { right. right. vm_compute. lia. }
  split; [exact Hline|]. exact (malformed_line_skipped (py "A|B") Hline).
Defined.

(* ================================================================== *)
(** * Graphs built from edge lists *)

Lemma add_node_nodes n g x :
  x ∈ g_nodes (add_node n g) ↔ x = n ∨ x ∈ g_nodes g.
Proof.
  unfold add_node. case_decide; simpl; [set_solver|].
  rewrite elem_of_app, list_elem_of_singleton. tauto.
Qed.

Lemma add_node_edges n g : g_edges (add_node n g) = g_edges g.
Proof. unfold add_node. by case_decide. Qed.

Lemma add_edge_nodes e g x :
  x ∈ g_nodes (add_edge e g) ↔ x = e.1 ∨ x = e.2 ∨ x ∈ g_nodes g.
Proof.
  unfold add_edge. case_decide; simpl; rewrite !add_node_nodes; tauto.
Qed.

Lemma add_edge_edges e g x :
  x ∈ g_edges (add_edge e g) ↔ x = e ∨ x ∈ g_edges g.
Proof.
  unfold add_edge. case_decide as Hin; simpl.
  - rewrite !add_node_edges in *. set_solver.
  - rewrite elem_of_app, list_elem_of_singleton, !add_node_edges. tauto.
Qed.

Lemma add_edge_wf e g : wf_graph g → wf_graph (add_edge e g).
Proof.
  intros Hwf u v [<-|Hin]%add_edge_edges; rewrite !add_edge_nodes; simpl.
  - tauto.
  - apply Hwf in Hin. tauto.
Qed.

Lemma add_edges_from_edges es g x :
  x ∈ g_edges (add_edges_from es g) ↔ x ∈ es ∨ x ∈ g_edges g.
Proof.
  unfold add_edges_from. revert g.
  induction es as [|e es IH]; intros g; simpl; [set_solver|].
  rewrite IH, add_edge_edges, elem_of_cons. tauto.
Qed.

(** A graph built by [add_edges_from] satisfies the class invariant. *)
Lemma add_edges_from_wf es g : wf_graph g → wf_graph (add_edges_from es g).
Proof.
  unfold add_edges_from. revert g.
  induction es as [|e es IH]; intros g Hwf; simpl; [done|].
  by apply IH, add_edge_wf.
Qed.

Lemma empty_graph_wf : wf_graph empty_graph.
Proof. intros u v Hin. by apply elem_of_nil in Hin. Qed.

(** The graphs the two analyses build from a file have no self-loop. *)
Lemma parsed_graphs_no_self_loops iter lines :
  valid_order iter →
  let '(parent_child, broader_than, _, _, _) := parse_umls iter lines in
  no_self_loops (add_edges_from parent_child empty_graph) ∧
  no_self_loops (add_edges_from broader_than empty_graph).
Proof.
  intros Hiter. unfold parse_umls.
  destruct (edge_sets_loop_free lines) as [Hpc Hbt].
  split; intros u [Hin|Hin%elem_of_nil]%add_edges_from_edges; try done.
  - pose proof (Hiter _ _ _ (parent_child_edges (parse_lines lines))) as Hp.
    rewrite Hp, elem_of_elements in Hin. by apply (Hpc u).
  - pose proof (Hiter _ _ _ (broader_than_edges (parse_lines lines))) as Hp.
    rewrite Hp, elem_of_elements in Hin. by apply (Hbt u).
Qed.

Lemma two_cycle_wf : wf_graph two_cycle.
Proof. apply add_edges_from_wf, empty_graph_wf. Qed.

Lemma iter_elements_valid : valid_order iter_elements.
Proof. by intros A ? ? s. Qed.

Lemma iter_reverse_valid : valid_order iter_reverse.
Proof. intros A ? ? s. apply reverse_Permutation. Qed.

(* ================================================================== *)
(** * The order on strings *)

Lemma str_compare_refl a : str_compare a a = Eq.
Proof. induction a as [|x a IH]; [done|]. simpl. by rewrite N.compare_refl. Qed.

Lemma str_compare_eq a b : str_compare a b = Eq → a = b.
Proof.
  revert b. induction a as [|x a IH]; intros [|y b]; simpl; try done.
  destruct (x ?= y)%N eqn:Hxy; try done.
  apply N.compare_eq in Hxy as ->. intros ?%IH. by subst.
Qed.

Lemma str_compare_antisym a b : str_compare b a = CompOpp (str_compare a b).
Proof.
  revert b. induction a as [|x a IH]; intros [|y b]; simpl; try done.
  rewrite (N.compare_antisym x y).
  destruct (x ?= y)%N; simpl; [apply IH|done..].
Qed.

Lemma str_lt_trans a b c : str_lt a b → str_lt b c → str_lt a c.
Proof.
  unfold str_lt. revert b c.
  induction a as [|x a IH]; intros [|y b] [|z c]; simpl; try done.
  destruct (x ?= y)%N eqn:Hxy, (y ?= z)%N eqn:Hyz; try done.
  - apply N.compare_eq in Hxy as ->. rewrite Hyz. apply IH.
  - apply N.compare_eq in Hxy as ->. by rewrite Hyz.
  - apply N.compare_eq in Hyz as <-. by rewrite Hxy.
  - rewrite N.compare_lt_iff in Hxy, Hyz.
    assert ((x ?= z)%N = Lt) as -> by (apply N.compare_lt_iff; lia). done.
Qed.

Global Instance str_le_total : Total str_le.
Proof.
  intros a b. unfold str_le. rewrite (str_compare_antisym a b).
  destruct (str_compare a b); simpl; auto.
Qed.

Global Instance str_le_trans : Transitive str_le.
Proof.
  intros a b c. unfold str_le. intros Hab Hbc.
  destruct (str_compare a b) eqn:Eab; [| |done].
  - by apply str_compare_eq in Eab as ->.
  - destruct (str_compare b c) eqn:Ebc; [| |done].
    + apply str_compare_eq in Ebc as <-. by rewrite Eab.
    + by rewrite (str_lt_trans a b c Eab Ebc).
Qed.

Global Instance str_le_antisym : AntiSymm eq str_le.
Proof.
  intros a b. unfold str_le. rewrite (str_compare_antisym a b).
  destruct (str_compare a b) eqn:Eab; simpl; try done.
  intros _ _. by apply str_compare_eq.
Qed.

Lemma not_str_lt a b : ¬ str_lt a b → str_le b a.
Proof.
  unfold str_lt, str_le. rewrite (str_compare_antisym a b).
  destruct (str_compare a b); simpl; done.
Qed.

Lemma str_lt_le a b : str_lt a b → str_le a b.
Proof. unfold str_lt, str_le. by intros ->. Qed.

Lemma sorted_elem_of x l : x ∈ sorted l ↔ x ∈ l.
Proof. unfold sorted. by rewrite merge_sort_Permutation. Qed.

(** [sorted] depends on the elements of the list only, not on their
    order. *)
Lemma sorted_perm l1 l2 : l1 ≡ₚ l2 → sorted l1 = sorted l2.
Proof.
  intros Hp. unfold sorted.
  apply (Sorted_unique str_le); try apply _.
  - apply Sorted_merge_sort, _.
  - apply Sorted_merge_sort, _.
  - by rewrite !merge_sort_Permutation.
Qed.

(* ================================================================== *)
(** * Canonical form of a cycle *)

Lemma foldl_min_spec x l :
  let m := foldl (λ m y, if decide (str_lt y m) then y else m) x l in
  m ∈ x :: l ∧ ∀ y, y ∈ x :: l → str_le m y.
Proof.
  revert x. induction l as [|z l IH]; intros x; simpl.
  { split; [set_solver|]. intros y ->%list_elem_of_singleton.
    unfold str_le. by rewrite str_compare_refl. }
  destruct (IH (if decide (str_lt z x) then z else x)) as [Hin Hle].
  split.
  - case_decide; set_solver.
  - intros y Hy.
    assert (Hm := Hle _ (list_elem_of_here _ _)).
    apply elem_of_cons in Hy as [->|Hy].
    + etrans; [exact Hm|]. case_decide.
      * by apply str_lt_le.
      * unfold str_le. by rewrite str_compare_refl.
    + apply elem_of_cons in Hy as [->|Hy].
      * etrans; [exact Hm|]. case_decide.
        -- unfold str_le. by rewrite str_compare_refl.
        -- by apply not_str_lt.
      * apply Hle. by right.
Qed.

Lemma py_min_spec l m :
  py_min l = Ok m → m ∈ l ∧ ∀ y, y ∈ l → str_le m y.
Proof.
  destruct l as [|x l]; [done|]. simpl. intros [= <-]. apply foldl_min_spec.
Qed.

Lemma py_min_ok l : l ≠ [] → ∃ m, py_min l = Ok m.
Proof. destruct l; [done|]. simpl. eauto. Qed.

Lemma py_min_perm l1 l2 : l1 ≡ₚ l2 → py_min l1 = py_min l2.
Proof.
  intros Hp. destruct l1 as [|x l1].
  { by apply Permutation_nil_l in Hp as ->. }
  destruct l2 as [|y l2].
  { by apply Permutation_nil_r in Hp. }
  destruct (py_min_ok (x :: l1)) as [m1 H1]; [done|].
  destruct (py_min_ok (y :: l2)) as [m2 H2]; [done|].
  rewrite H1, H2. f_equal.
  apply py_min_spec in H1 as [Hin1 Hle1], H2 as [Hin2 Hle2].
  apply (anti_symm str_le).
  - apply Hle1. by rewrite Hp.
  - apply Hle2. by rewrite <-Hp.
Qed.

Lemma index_app_fresh x a b : x ∉ a → index x (a ++ x :: b) = Ok (length a).
Proof.
  induction a as [|y a IH]; simpl; intros Hx.
  - by rewrite decide_True.
  - rewrite decide_False by set_solver. rewrite IH by set_solver. done.
Qed.

Lemma index_ok x l : x ∈ l → ∃ i, index x l = Ok i ∧ l !! i = Some x.
Proof.
  induction l as [|y l IH]; [by intros ?%elem_of_nil|].
  intros Hx. simpl. destruct (decide (y = x)) as [->|Hne].
  - by exists 0.
  - destruct IH as (i&Hi&Hl); [set_solver|]. rewrite Hi. by exists (S i).
Qed.

Lemma normalize_cycle_split a m b :
  m ∉ a → py_min (a ++ m :: b) = Ok m →
  normalize_cycle (a ++ m :: b) = Ok (m :: b ++ a).
Proof.
  intros Hm Hmin. unfold normalize_cycle. rewrite Hmin. simpl.
  rewrite index_app_fresh by done. simpl.
  rewrite drop_app_length, take_app_length. done.
Qed.

Lemma normalize_cycle_swap l1 l2 :
  NoDup (l1 ++ l2) → normalize_cycle (l2 ++ l1) = normalize_cycle (l1 ++ l2).
Proof.
  intros Hnd.
  destruct (decide (l1 ++ l2 = [])) as [Hnil|Hne].
  { apply app_eq_nil in Hnil as [-> ->]. done. }
  destruct (py_min_ok _ Hne) as [m Hmin].
  assert (Hmin' : py_min (l2 ++ l1) = Ok m).
  { rewrite <-Hmin. apply py_min_perm, Permutation_app_comm. }
  destruct (py_min_spec _ _ Hmin) as [Hin _].
  apply NoDup_app in Hnd as (Hnd1 & Hdisj & Hnd2).
  apply elem_of_app in Hin as [Hin|Hin].
  - apply list_elem_of_split in Hin as (a & b & ->).
    apply NoDup_app in Hnd1 as (_ & Ha & _).
    rewrite <-(assoc_L (++) a (m :: b) l2) in Hmin |- *.
    rewrite (assoc_L (++) l2 a (m :: b)) in Hmin' |- *.
    simpl in Hmin |- *.
    rewrite (normalize_cycle_split a m (b ++ l2)); [|set_solver|done].
    rewrite (normalize_cycle_split (l2 ++ a) m b); [|set_solver|done].
    by rewrite <-!(assoc_L (++)).
  - apply list_elem_of_split in Hin as (a & b & ->).
    apply NoDup_app in Hnd2 as (_ & Ha & _).
    rewrite (assoc_L (++) l1 a (m :: b)) in Hmin |- *.
    rewrite <-(assoc_L (++) a (m :: b) l1) in Hmin' |- *.
    simpl in Hmin' |- *.
    rewrite (normalize_cycle_split (l1 ++ a) m b); [|set_solver|done].
    rewrite (normalize_cycle_split a m (b ++ l1)); [|set_solver|done].
    by rewrite <-!(assoc_L (++)).
Qed.

(** Rotations of a cycle of distinct nodes have the same canonical form. *)
Lemma normalize_cycle_rotate k c :
  NoDup c → normalize_cycle (rotate k c) = normalize_cycle c.
Proof.
  intros Hnd. unfold rotate.
  set (n := k `mod` length c).
  trans (normalize_cycle (take n c ++ drop n c)); [|by rewrite take_drop].
  apply normalize_cycle_swap. by rewrite take_drop.
Qed.

(** The canonical form is the rotation that starts at the least node. *)
Lemma normalize_cycle_min c :
  c ≠ [] → NoDup c →
  ∃ m i, normalize_cycle c = Ok (rotate i c) ∧ c !! i = Some m ∧
         head (rotate i c) = Some m ∧ ∀ x, x ∈ c → str_le m x.
Proof.
  intros Hne Hnd.
  destruct (py_min_ok _ Hne) as [m Hmin].
  destruct (py_min_spec _ _ Hmin) as [Hin Hle].
  destruct (index_ok _ _ Hin) as (i & Hi & Hl).
  assert (Hlt : i < length c) by (by eapply lookup_lt_Some).
  exists m, i. unfold normalize_cycle, rotate.
  rewrite Hmin. simpl. rewrite Hi. simpl.
  rewrite Nat.mod_small by done.
  repeat split; [done| |done].
  by rewrite (drop_S _ _ _ Hl).
Qed.

(* ================================================================== *)
(** * The cycle detector *)

Lemma validate_cycle_closed g c :
  validate_cycle g c = true ↔ closed_path g c.
Proof.
  unfold validate_cycle, closed_path. rewrite forallb_forall. split.
  - intros Hall i u v Hu Hv.
    specialize (Hall i). rewrite Hu, Hv in Hall.
    eapply bool_decide_eq_true_1, Hall.
    apply list_elem_of_In, elem_of_seq. apply lookup_lt_Some in Hu. lia.
  - intros Hall i [_ Hi]%list_elem_of_In%elem_of_seq. simpl in Hi.
    destruct (lookup_lt_is_Some_2 c i Hi) as [u Hu].
    assert (Hj : (i + 1) `mod` length c < length c)
      by (apply Nat.mod_upper_bound; lia).
    destruct (lookup_lt_is_Some_2 c _ Hj) as [v Hv].
    rewrite Hu, Hv. apply bool_decide_eq_true_2. eauto.
Qed.

Lemma successors_elem_of g u v : v ∈ successors g u ↔ (u, v) ∈ g_edges g.
Proof.
  unfold successors. rewrite list_elem_of_fmap. split.
  - intros ([u' v'] & -> & [Hu Hin]%list_elem_of_filter). simpl in *. by subst.
  - intros Hin. exists (u, v). split; [done|].
    apply list_elem_of_filter. by split.
Qed.

Lemma unvisited_mono g vis vis' :
  vis ⊆ vis' → unvisited g vis' ≤ unvisited g vis.
Proof.
  intros Hsub. unfold unvisited.
  induction (g_nodes g) as [|n l IH]; [done|].
  rewrite !filter_cons.
  destruct (decide (n ∉ vis')), (decide (n ∉ vis)); simpl; try lia.
  set_solver.
Qed.

Lemma unvisited_visit g vis node :
  node ∈ g_nodes g → node ∉ vis →
  unvisited g ({[node]} ∪ vis) < unvisited g vis.
Proof.
  intros Hin Hnot. unfold unvisited.
  induction (g_nodes g) as [|n l IH]; [by apply elem_of_nil in Hin|].
  rewrite !filter_cons.
  apply elem_of_cons in Hin as [<-|Hin].
  - rewrite decide_False by set_solver. rewrite decide_True by done. simpl.
    apply Nat.lt_succ_r.
    apply (unvisited_mono (Graph l []) vis ({[node]} ∪ vis)). set_solver.
  - specialize (IH Hin).
    destruct (decide (n ∉ {[node]} ∪ vis)), (decide (n ∉ vis)); simpl;
      try lia.
    set_solver.
Qed.

Lemma canon_normalize c n : normalize_cycle c = Ok n → canon c = n.
Proof. unfold canon. by intros ->. Qed.

Lemma normalize_cycle_ok c : c ≠ [] → ∃ n, normalize_cycle c = Ok n.
Proof.
  intros Hne. destruct (py_min_ok _ Hne) as [m Hm].
  destruct (py_min_spec _ _ Hm) as [Hin _].
  destruct (index_ok _ _ Hin) as (i & Hi & _).
  unfold normalize_cycle. rewrite Hm. simpl. rewrite Hi. simpl. eauto.
Qed.

Section search.
Context (g : DiGraph) (Hwf : wf_graph g).


Lemma dfs_post_refl st :
  cycles_inv g (detailed_cycles st) (unique_cycles st) → dfs_post g st st.
Proof. intros Hc. by split_and!. Qed.

(** The loop over the neighbours. *)
Lemma for_each_dfs fuel :
  dfs_spec g fuel →
  ∀ l st,
    (∀ x, x ∈ l → x ∈ g_nodes g) →
    path_inv g (rec_stack st) (path st) →
    cycles_inv g (detailed_cycles st) (unique_cycles st) →
    unvisited g (visited st) < fuel →
    ∃ st', for_each (dfs_cycle g fuel) l st = Ok st' ∧ dfs_post g st st'.
Proof.
  intros Hspec. induction l as [|x l IH]; intros st Hl Hp Hc Hf.
  { exists st. split; [done|]. by apply dfs_post_refl. }
  destruct (Hspec x st) as (st1 & Hrun & Hc1 & Hp1 & Hr1 & Hv1);
    [set_solver|done..|].
  destruct (IH st1) as (st2 & Hrun2 & Hc2 & Hp2 & Hr2 & Hv2).
  - set_solver.
  - by rewrite Hp1, Hr1.
  - done.
  - pose proof (unvisited_mono g _ _ Hv1). lia.
  - exists st2. simpl. rewrite Hrun. simpl. split; [done|].
    split_and!; [apply Hc2|congruence|congruence|set_solver].
Qed.

(** Recording a new cycle keeps the invariant of the recorded cycles. *)
Lemma cycles_inv_record cs u cycle normalized :
  cycles_inv g cs u →
  cycle ≠ [] → NoDup cycle →
  normalize_cycle cycle = Ok normalized →
  normalized ∉ u →
  validate_cycle g cycle = true →
  cycles_inv g (cs ++ [CycleInfo cycle (cycle_paths cycle)])
             ({[normalized]} ∪ u).
Proof.
  intros (Hvalid & Huniq & Hnd) Hne Hcnd Hnorm Hfresh Hval.
  apply canon_normalize in Hnorm.
  split_and!.
  - intros ci [?%Hvalid| ->%list_elem_of_singleton]%elem_of_app; done.
  - intros ci [?%Huniq| ->%list_elem_of_singleton]%elem_of_app; [set_solver|].
    simpl. rewrite Hnorm. set_solver.
  - rewrite fmap_app. apply NoDup_app. split; [done|]. split.
    + intros n (ci & -> & Hci)%list_elem_of_fmap.
      simpl. rewrite Hnorm. intros Heq%list_elem_of_singleton.
      apply Huniq in Hci. by rewrite Heq in Hci.
    + apply NoDup_singleton.
Qed.

Lemma dfs_cycle_ok fuel : dfs_spec g fuel.
Proof.
  induction fuel as [|fuel IH]; intros node st Hnode Hp Hc Hf; [lia|].
  destruct Hp as (Hnd & Hrs & Hpn). simpl.
  destruct (decide (node ∈ rec_stack st)) as [Hin|Hnin].
  - (* a node of the current path: a candidate cycle *)
    apply Hrs in Hin.
    destruct (index_ok _ _ Hin) as (i & Hi & Hl).
    rewrite Hi. simpl.
    assert (Hne : drop i (path st) ≠ []).
    { by rewrite (drop_S _ _ _ Hl). }
    assert (Hcnd : NoDup (drop i (path st))).
    { eapply sublist_NoDup; [done|apply sublist_drop]. }
    destruct (normalize_cycle_ok _ Hne) as [n Hn]. rewrite Hn. simpl.
    destruct (bool_decide (n ∉ unique_cycles st)) eqn:Hfresh; simpl;
      [destruct (validate_cycle g (drop i (path st))) eqn:Hval|].
    + eexists. split; [done|]. split_and!; simpl; try done.
      apply cycles_inv_record; try done.
      by apply bool_decide_eq_true in Hfresh.
    + exists st. split; [done|]. by apply dfs_post_refl.
    + exists st. split; [done|]. by apply dfs_post_refl.
  - destruct (decide (node ∈ visited st)) as [Hvis|Hnew].
    { exists st. split; [done|]. by apply dfs_post_refl. }
    (* a new node: extend the path and search its neighbours *)
    unfold neighbors. rewrite decide_True by done. simpl.
    set (st1 := DfsState _ _ _ _ _).
    destruct (for_each_dfs fuel IH (sorted (successors g node)) st1)
      as (st2 & Hrun & Hc2 & Hp2 & Hr2 & Hv2).
    + intros x Hx%sorted_elem_of%successors_elem_of.
      by apply Hwf in Hx as [_ ?].
    + simpl. split_and!.
      * apply NoDup_app. split; [done|]. split; [|apply NoDup_singleton].
        intros x Hx ->%list_elem_of_singleton. by apply Hnin, Hrs.
      * intros x. rewrite elem_of_union, elem_of_app, Hrs.
        rewrite elem_of_singleton, list_elem_of_singleton. tauto.
      * intros x [?| ->%list_elem_of_singleton]%elem_of_app; auto.
    + done.
    + simpl. pose proof (unvisited_visit g _ _ Hnode Hnew). lia.
    + rewrite Hrun. simpl. rewrite Hp2, Hr2. simpl.
      unfold pop. destruct (path st ++ [node]) eqn:Happ.
      { by apply app_eq_nil in Happ as [_ ?]. }
      rewrite <-Happ. simpl.
      unfold set_remove. rewrite decide_True by set_solver. simpl.
      eexists. split; [done|]. split_and!; simpl; try apply Hc2.
      * rewrite length_app. simpl.
        replace (length (path st) + 1 - 1) with (length (path st)) by lia.
        by rewrite take_app_length.
      * set_solver.
      * set_solver.
Qed.

(** [detect_cycles] returns, and its result satisfies the invariant of
    the recorded cycles. *)
Lemma detect_cycles_ok :
  ∃ cs u, detect_cycles g = Ok cs ∧ cycles_inv g cs u.
Proof.
  unfold detect_cycles.
  set (body := λ (node : str) (st : dfs_state), _).
  assert (Hloop : ∀ l st,
    (∀ x, x ∈ l → x ∈ g_nodes g) →
    path st = [] → rec_stack st = ∅ →
    cycles_inv g (detailed_cycles st) (unique_cycles st) →
    ∃ st', for_each body l st = Ok st' ∧
           cycles_inv g (detailed_cycles st') (unique_cycles st')).
  { induction l as [|x l IHl]; intros st Hl Hp Hr Hc; [by exists st|].
    change (for_each body (x :: l) st)
      with (body x st ≫= for_each body l).
    destruct (decide (x ∉ visited st)) as [Hx|Hx].
    - destruct (dfs_cycle_ok (S (length (g_nodes g))) x
        (DfsState (detailed_cycles st) (visited st) (rec_stack st)
                  (unique_cycles st) []))
        as (st1 & Hrun & Hc1 & Hp1 & Hr1 & Hv1).
      + set_solver.
      + simpl. rewrite Hr. split_and!; [constructor|set_solver..].
      + done.
      + simpl. unfold unvisited. pose proof (length_filter
          (λ n, n ∉ visited st) (g_nodes g)). lia.
      + assert (body x st = Ok st1) as ->.
        { unfold body. by rewrite decide_True. }
        simpl in *. apply IHl; [set_solver|done|congruence|done].
    - assert (body x st = Ok st) as ->.
      { unfold body. by rewrite decide_False. }
      simpl. apply IHl; [set_solver|done..]. }
  destruct (Hloop (sorted (g_nodes g)) (DfsState [] ∅ ∅ ∅ []))
    as (st' & Hrun & Hc'); simpl; try done.
  - intros x. by rewrite sorted_elem_of.
  - split_and!; [set_solver..|constructor].
  - rewrite Hrun. simpl. eauto.
Qed.
End search.

Lemma closed_path_single g u : closed_path g [u] → (u, u) ∈ g_edges g.
Proof. intros Hc. by apply (Hc 0 u u). Qed.

(** C4: a cycle of distinct nodes and each of its rotations have the same
    canonical form, which is the rotation that starts at the least node;
    and no two entries of the list the cycle detector returns are
    rotations of one another. *)
Theorem cycle_canonical_dedup (c : list str) (k : nat) :
  NoDup c →
  normalize_cycle (rotate k c) = normalize_cycle c ∧
  (c ≠ [] →
     ∃ m i, normalize_cycle c = Ok (rotate i c) ∧
            head (rotate i c) = Some m ∧ m ∈ c ∧ ∀ x, x ∈ c → str_le m x) ∧
  (∀ g, wf_graph g →
     ∃ cs, detect_cycles g = Ok cs ∧
           ∀ i j ci cj, cs !! i = Some ci → cs !! j = Some cj →
                        rotation (ci_nodes ci) (ci_nodes cj) → i = j).
Proof.
  intros Hnd. split_and!.
  - by apply normalize_cycle_rotate.
  - intros Hne.
    destruct (normalize_cycle_min c Hne Hnd) as (m & i & Hn & Hl & Hh & Hle).
    exists m, i. split_and!; try done. by eapply list_elem_of_lookup_2.
  - intros g Hwf.
    destruct (detect_cycles_ok g Hwf) as (cs & u & Hrun & Hvalid & _ & Hdist).
    exists cs. split; [done|]. intros i j ci cj Hi Hj [n Hrot].
    apply (NoDup_lookup _ i j (canon (ci_nodes ci)) Hdist).
    + by rewrite list_lookup_fmap, Hi.
    + rewrite list_lookup_fmap, Hj. simpl. unfold canon.
      rewrite Hrot, normalize_cycle_rotate; [done|].
      eapply Hvalid. by eapply list_elem_of_lookup_2.
Qed.

Lemma cycle_canonical_dedup_witness :
  NoDup [B; C; A] ∧
  normalize_cycle (rotate 1 [B; C; A]) = normalize_cycle [B; C; A] ∧
  ([B; C; A] ≠ [] →
     ∃ m i, normalize_cycle [B; C; A] = Ok (rotate i [B; C; A]) ∧
            head (rotate i [B; C; A]) = Some m ∧ m ∈ [B; C; A] ∧
            ∀ x, x ∈ [B; C; A] → str_le m x) ∧
  wf_graph two_cycle ∧
  ∃ cs, detect_cycles two_cycle = Ok cs ∧
        ∀ i j ci cj, cs !! i = Some ci → cs !! j = Some cj →
                     rotation (ci_nodes ci) (ci_nodes cj) → i = j.
Proof.
  assert (Hnd : NoDup [B; C; A]) by compute_done.
  destruct (cycle_canonical_dedup [B; C; A] 1 Hnd) as (H1 & H2 & H3).
  split_and!; [exact Hnd|exact H1|exact H2|exact two_cycle_wf|].
  exact (H3 two_cycle two_cycle_wf).
Defined.

(** C5, as the code has it: the detector returns, and for every cycle it
    emits every consecutive pair of the node sequence, the pair from the
    last node back to the first included, is an edge of the graph, the
    nodes are pairwise distinct and there is at least one; on a graph
    without self-loops every emitted cycle has at least two nodes. *)
Theorem emitted_cycles_valid (g : DiGraph) :
  wf_graph g →
  ∃ cs, detect_cycles g = Ok cs ∧
        ∀ ci, ci ∈ cs →
          closed_path g (ci_nodes ci) ∧ NoDup (ci_nodes ci) ∧
          1 ≤ length (ci_nodes ci) ∧
          (no_self_loops g → 2 ≤ length (ci_nodes ci)) ∧
          ci_paths ci = cycle_paths (ci_nodes ci).
Proof.
  intros Hwf.
  destruct (detect_cycles_ok g Hwf) as (cs & u & Hrun & Hvalid & _ & _).
  exists cs. split; [done|]. intros ci Hci.
  destruct (Hvalid ci Hci) as (Hne & Hnd & Hval & Hpaths).
  apply validate_cycle_closed in Hval.
  split_and!; try done.
  - destruct (ci_nodes ci); [done|simpl; lia].
  - intros Hloops. destruct (ci_nodes ci) as [|x [|y l]]; [done| |simpl; lia].
    by apply closed_path_single, Hloops in Hval.
Qed.


Lemma emitted_cycles_valid_witness :
  wf_graph two_cycle ∧
  ∃ cs, detect_cycles two_cycle = Ok cs ∧
        ∀ ci, ci ∈ cs →
          closed_path two_cycle (ci_nodes ci) ∧ NoDup (ci_nodes ci) ∧
          1 ≤ length (ci_nodes ci) ∧
          (no_self_loops two_cycle → 2 ≤ length (ci_nodes ci)) ∧
          ci_paths ci = cycle_paths (ci_nodes ci).
Proof.
  split; [exact two_cycle_wf|].
  exact (emitted_cycles_valid two_cycle two_cycle_wf).
Defined.


(** C5 as stated fails on a graph with a self-loop: the detector emits the
    one-node cycle A. *)
Lemma emitted_cycle_single_node :
  ¬ (∀ g cs ci, wf_graph g → detect_cycles g = Ok cs → ci ∈ cs →
       closed_path g (ci_nodes ci) ∧ 2 ≤ length (ci_nodes ci) ∧
       NoDup (ci_nodes ci)).
Proof.
  intros Hall.
  destruct (Hall self_loop_graph [CycleInfo [A] [[A; A]]]
              (CycleInfo [A] [[A; A]])) as (_ & Hlen & _).
  - apply add_edges_from_wf, empty_graph_wf.
  - by vm_compute.
  - apply list_elem_of_here.
  - simpl in Hlen. lia.
Qed.




(** C1 fails on the code: on this graph the search reaches B from C only
    after B has been marked visited, and returns without looking at the
    edge B -> A; the cycle A C B is a simple cycle of the graph that the
    detector does not return, in any rotation. *)
Theorem detect_cycles_misses_cycle :
  wf_graph two_cycles_graph ∧
  simple_cycle two_cycles_graph [A; C; B] ∧
  detect_cycles two_cycles_graph = Ok [CycleInfo [A; B] [[A; B]; [B; A]]] ∧
  analyze_parent_child_relations iter_elements two_cycles_lines
    = Ok [CycleInfo [A; B] [[A; B]; [B; A]]] ∧
  ¬ (∀ g c, wf_graph g → simple_cycle g c →
       ∃ cs, detect_cycles g = Ok cs ∧
             ∃ ci, ci ∈ cs ∧ rotation c (ci_nodes ci)).
Proof.
  assert (Hwf : wf_graph two_cycles_graph).
  { apply add_edges_from_wf, empty_graph_wf. }
  assert (Hcyc : simple_cycle two_cycles_graph [A; C; B]).
  { split_and!; [done|compute_done|].
    apply validate_cycle_closed. by vm_compute. }
  assert (Hrun : detect_cycles two_cycles_graph
                 = Ok [CycleInfo [A; B] [[A; B]; [B; A]]]) by (by vm_compute).
  split_and!; [done|done|done|by vm_compute|].
  intros Hall.
  destruct (Hall _ _ Hwf Hcyc) as (cs & Hcs & ci & Hci & k & Hrot).
  rewrite Hrun in Hcs. injection Hcs as <-.
  apply list_elem_of_singleton in Hci as ->.
  apply (f_equal length) in Hrot. rewrite length_rotate in Hrot.
  simpl in Hrot. lia.
Qed.

(* ================================================================== *)
(** * Breadth-first search: descendants and shortest paths *)

Lemma is_path_app g p x q :
  is_path g p → last p = Some x → is_path g (x :: q) → is_path g (p ++ q).
Proof.
  induction p as [|u [|v p] IH]; intros Hp Hl Hq; [done| |].
  - simpl in Hl. by simplify_eq.
  - destruct Hp as [Huv Hp]. split; [done|]. by apply IH.
Qed.

Lemma way_back_is_path g l : way_back g l → is_path g (reverse l).
Proof.
  induction l as [|w [|x l] IH]; intros Hw; [done..|].
  destruct Hw as [Hxw Hw]. rewrite reverse_cons.
  apply (is_path_app g _ x [w]); [by apply IH| |by split].
  by rewrite last_reverse.
Qed.

Lemma way_back_reach g s x back :
  way_back g (x :: back) → last (x :: back) = Some s → reach g s x.
Proof.
  revert x. induction back as [|y back IH]; intros x Hw Hl.
  - simpl in Hl. simplify_eq. apply rtc_refl.
  - destruct Hw as [Hyx Hw]. eapply rtc_r; [|exact Hyx].
    apply IH; [done|]. by rewrite last_cons_cons in Hl.
Qed.

Lemma enqueue_spec x back ws seen :
  NoDup seen →
  NoDup (seen ++ (enqueue x back ws seen).*1) ∧
  (∀ w b, (w, b) ∈ enqueue x back ws seen →
          b = x :: back ∧ w ∈ ws ∧ w ∉ seen) ∧
  (∀ w, w ∈ ws → w ∈ seen ∨ w ∈ (enqueue x back ws seen).*1).
Proof.
  revert seen. induction ws as [|w ws IH]; intros seen Hnd; simpl.
  { rewrite app_nil_r. split_and!; [done|by intros ?? ?%elem_of_nil|].
    by intros ? ?%elem_of_nil. }
  destruct (decide (w ∈ seen)) as [Hin|Hnin].
  - destruct (IH seen Hnd) as (H1 & H2 & H3). split_and!; [done| |].
    + intros w' b Hwb. destruct (H2 w' b Hwb) as (?&?&?). set_solver.
    + intros w' [->|Hw']%elem_of_cons; [by left|by apply H3].
  - destruct (IH (w :: seen)) as (H1 & H2 & H3).
    { by constructor. }
    split_and!.
    + simpl. by rewrite <-Permutation_middle.
    + intros w' b [?|Hwb]%elem_of_cons.
      * simplify_eq. set_solver.
      * destruct (H2 w' b Hwb) as (?&?&?). set_solver.
    + intros w' [->|Hw']%elem_of_cons; simpl; [set_solver|].
      destruct (H3 w' Hw') as [?|?]; set_solver.
Qed.

Lemma enqueue_elem_of x back ws seen w :
  NoDup seen → w ∈ ws → w ∉ seen → (w, x :: back) ∈ enqueue x back ws seen.
Proof.
  intros Hnd Hw Hs.
  destruct (enqueue_spec x back ws seen Hnd) as (_ & H2 & H3).
  destruct (H3 w Hw) as [?|([w' b] & ? & Hwb)%list_elem_of_fmap]; [done|].
  simpl in *. subst w'. by destruct (H2 w b Hwb) as (-> & _).
Qed.

Lemma NoDup_fst_eq (l : list tree_entry) x b1 b2 :
  NoDup l.*1 → (x, b1) ∈ l → (x, b2) ∈ l → b1 = b2.
Proof.
  induction l as [|[y b] l IH]; [by intros _ ?%elem_of_nil|].
  rewrite fmap_cons, NoDup_cons. simpl. intros [Hy Hnd].
  intros [?|H1]%elem_of_cons [?|H2]%elem_of_cons; simplify_eq; auto.
  - exfalso. apply Hy. apply list_elem_of_fmap. by exists (y, b2).
  - exfalso. apply Hy. apply list_elem_of_fmap. by exists (y, b1).
Qed.

Section bfs.
Context (g : DiGraph) (Hwf : wf_graph g) (source : str).

Lemma bfs_inv_init :
  source ∈ g_nodes g → bfs_inv g source [] [(source, [])].
Proof.
  intros Hs. split_and!; simpl.
  - apply NoDup_singleton.
  - by intros x back [= -> ->]%list_elem_of_singleton.
  - by intros x y ?%elem_of_nil.
  - by intros x ->%list_elem_of_singleton.
  - apply list_elem_of_here.
Qed.

(** Settling the first node of the queue keeps the invariant. *)
Lemma bfs_inv_step done x back queue :
  bfs_inv g source done ((x, back) :: queue) →
  bfs_inv g source (done ++ [(x, back)])
    (queue ++ enqueue x back (successors g x)
                ((done ++ (x, back) :: queue).*1)).
Proof.
  intros (Hnd & Hent & Hclo & Hnodes & Hsrc).
  set (all := done ++ (x, back) :: queue) in *.
  destruct (enqueue_spec x back (successors g x) (all.*1) Hnd)
    as (H1 & H2 & H3).
  set (new := enqueue x back (successors g x) (all.*1)) in *.
  assert (Hall : (done ++ [(x, back)]) ++ queue ++ new = all ++ new).
  { unfold all. by rewrite <-!(assoc_L (++)). }
  assert (Hx : (x, back) ∈ all) by (unfold all; set_solver).
  unfold bfs_inv. rewrite Hall, fmap_app. split_and!.
  - done.
  - intros w b [?|Hwb]%elem_of_app; [by apply Hent|].
    destruct (H2 w b Hwb) as (-> & Hw%successors_elem_of & _).
    destruct (Hent x back Hx) as [Hway Hlast].
    split; [by split|]. by rewrite last_cons_cons.
  - intros x' y. rewrite fmap_app, elem_of_app. simpl.
    intros [Hx'| ->%list_elem_of_singleton] Hy.
    + apply elem_of_app. left. by eapply Hclo.
    + apply elem_of_app, H3. by apply successors_elem_of.
  - intros w [?|([w' b] & -> & Hwb)%list_elem_of_fmap]%elem_of_app;
      [by apply Hnodes|].
    destruct (H2 w' b Hwb) as (_ & Hw%successors_elem_of & _).
    by apply Hwf in Hw as [_ ?].
  - apply elem_of_app. by left.
Qed.

(** The search returns, with every node of the queue settled. *)
Lemma bfs_tree_ok fuel : ∀ done queue,
  bfs_inv g source done queue →
  length (g_nodes g) ≤ length done + fuel →
  ∃ rest, bfs_tree g fuel done queue = Ok (done ++ queue ++ rest) ∧
          bfs_inv g source (done ++ queue ++ rest) [].
Proof.
  induction fuel as [|fuel IH]; intros done [|[x back] queue] Hinv Hfuel.
  - exists []. simpl. by rewrite !app_nil_r.
  - exfalso. destruct Hinv as (Hnd & _ & _ & Hnodes & _).
    apply NoDup_submseteq in Hnodes; [|done].
    apply submseteq_length in Hnodes.
    rewrite length_fmap, length_app in Hnodes. simpl in Hnodes. lia.
  - exists []. simpl. by rewrite !app_nil_r.
  - apply bfs_inv_step in Hinv.
    destruct (IH _ _ Hinv) as (rest & Hrun & Hinv').
    { rewrite length_app. simpl. lia. }
    exists (enqueue x back (successors g x)
              ((done ++ (x, back) :: queue).*1) ++ rest).
    simpl. rewrite Hrun.
    rewrite <-!(assoc_L (++)) in Hinv' |- *. by simpl in *.
Qed.

Lemma bfs_ok :
  source ∈ g_nodes g →
  ∃ tree rest,
    bfs g source = Ok tree ∧ bfs_inv g source tree [] ∧
    tree = (source, []) ::
           enqueue source [] (successors g source) [source] ++ rest.
Proof.
  intros Hs. unfold bfs. rewrite decide_True by done.
  destruct (g_nodes g) as [|n ns] eqn:Hn; [by apply elem_of_nil in Hs|].
  rewrite <-Hn in Hs. simpl.
  pose proof (bfs_inv_step [] source [] [] (bfs_inv_init Hs)) as Hinv.
  simpl in Hinv.
  destruct (bfs_tree_ok (length ns) _ _ Hinv) as (rest & Hrun & Hinv').
  { rewrite Hn. simpl. lia. }
  eexists _, rest. simpl in *. by rewrite Hrun.
Qed.

(** The nodes of the search tree are the nodes reachable from the
    source. *)
Lemma bfs_inv_reach tree t :
  bfs_inv g source tree [] → t ∈ tree.*1 ↔ reach g source t.
Proof.
  intros (Hnd & Hent & Hclo & Hnodes & Hsrc).
  rewrite app_nil_r in *. split.
  - intros ([t' back] & -> & Hin)%list_elem_of_fmap.
    destruct (Hent _ _ Hin). by eapply way_back_reach.
  - revert t. unfold reach. apply rtc_ind_r; [done|].
    intros y z _ Hyz Hy. by eapply Hclo.
Qed.

Lemma descendants_ok :
  source ∈ g_nodes g →
  ∃ ds, descendants g source = Ok ds ∧
        ∀ t, t ∈ ds ↔ t ≠ source ∧ reach g source t.
Proof.
  intros Hs. destruct (bfs_ok Hs) as (tree & rest & Hrun & Hinv & _).
  unfold descendants. rewrite Hrun. simpl. eexists. split; [done|].
  intros t. rewrite elem_of_list_to_set, list_elem_of_filter.
  by rewrite (bfs_inv_reach _ t Hinv).
Qed.

Lemma shortest_path_ok target :
  source ∈ g_nodes g → reach g source target →
  ∃ p, shortest_path g source target = Ok p ∧
       is_path g p ∧ head p = Some source ∧ last p = Some target.
Proof.
  intros Hs Hreach. destruct (bfs_ok Hs) as (tree & rest & Hrun & Hinv & _).
  unfold shortest_path. rewrite Hrun. simpl.
  apply (bfs_inv_reach tree _ Hinv) in Hreach.
  apply list_elem_of_fmap in Hreach as ([t' back] & Ht & Hin).
  destruct (list_find_elem_of (λ e : tree_entry, e.1 = target) tree _ Hin)
    as [[i [x b]] Hfind]; [done|].
  rewrite Hfind. apply list_find_Some in Hfind as (Hl & Hx & _).
  simpl in Hx. subst x. apply list_elem_of_lookup_2 in Hl.
  destruct Hinv as (_ & Hent & _). rewrite app_nil_r in Hent.
  destruct (Hent _ _ Hl) as [Hway Hlast].
  eexists. split; [done|]. split_and!.
  - by apply way_back_is_path.
  - by rewrite head_reverse.
  - by rewrite last_reverse.
Qed.

(** Along a direct edge the shortest path is the edge. *)
Lemma shortest_path_edge target :
  (source, target) ∈ g_edges g → source ≠ target →
  shortest_path g source target = Ok [source; target].
Proof.
  intros Hedge Hne.
  assert (Hs : source ∈ g_nodes g) by (by apply Hwf in Hedge as [? _]).
  destruct (bfs_ok Hs) as (tree & rest & Hrun & Hinv & Htree).
  unfold shortest_path. rewrite Hrun. simpl.
  assert (Hin : (target, [source]) ∈ tree).
  { rewrite Htree. apply elem_of_cons. right. apply elem_of_app. left.
    apply enqueue_elem_of.
    - apply NoDup_singleton.
    - by apply successors_elem_of.
    - by intros ->%list_elem_of_singleton. }
  destruct (list_find_elem_of (λ e : tree_entry, e.1 = target) tree _ Hin)
    as [[i [x b]] Hfind]; [done|].
  rewrite Hfind. apply list_find_Some in Hfind as (Hl & Hx & _).
  simpl in Hx. subst x. apply list_elem_of_lookup_2 in Hl.
  destruct Hinv as (Hnd & _). rewrite app_nil_r in Hnd.
  by rewrite (NoDup_fst_eq tree target b [source] Hnd Hl Hin).
Qed.
End bfs.

(* ================================================================== *)
(** * The violation detector *)

Lemma for_each_collect {X V : Type} (body : X → list V → res (list V))
    (P : X → V → Prop) (l : list X) :
  (∀ x vs, x ∈ l →
     ∃ vs', body x vs = Ok vs' ∧ ∀ v, v ∈ vs' ↔ v ∈ vs ∨ P x v) →
  ∀ vs, ∃ vs', for_each body l vs = Ok vs' ∧
               ∀ v, v ∈ vs' ↔ v ∈ vs ∨ ∃ x, x ∈ l ∧ P x v.
Proof.
  induction l as [|x l IH]; intros Hbody vs; simpl.
  { exists vs. split; [done|]. intros v. split; [by left|].
    intros [?|(?&?%elem_of_nil&_)]; done. }
  destruct (Hbody x vs) as (vs1 & Hrun & H1); [apply list_elem_of_here|].
  destruct (IH (λ y ws Hy, Hbody y ws (list_elem_of_further _ _ _ Hy)) vs1)
    as (vs2 & Hrun2 & H2).
  exists vs2. rewrite Hrun. simpl. split; [done|].
  intros v. rewrite H2, H1. split.
  - intros [[?|?]|(y & ? & ?)]; [by left|right..].
    + exists x. split; [apply list_elem_of_here|done].
    + exists y. split; [by apply list_elem_of_further|done].
  - intros [?|(y & [->|?]%elem_of_cons & ?)]; eauto.
Qed.

Lemma reach_nodes g s t :
  wf_graph g → reach g s t → s = t ∨ (s ∈ g_nodes g ∧ t ∈ g_nodes g).
Proof.
  intros Hwf. revert t. unfold reach. apply rtc_ind_r; [by left|].
  intros y z _ Hyz IH. right. apply Hwf in Hyz as [Hy Hz].
  destruct IH as [->|[? _]]; by split.
Qed.

Section violations.
Context (g : DiGraph) (Hwf : wf_graph g).
Context (iter : set_order) (Hiter : valid_order iter).

Lemma desc_set_spec n t :
  n ∈ g_nodes g → t ∈ desc_set g n ↔ t ≠ n ∧ reach g n t.
Proof.
  intros Hn. destruct (descendants_ok g Hwf n Hn) as (ds & Hrun & Hds).
  unfold desc_set. by rewrite Hrun.
Qed.

(** Lines 197-199: the dictionary of the descendants of every node. *)
Lemma descendants_dict_ok l : ∀ d0,
  (∀ n, n ∈ l → n ∈ g_nodes g) →
  ∃ d, for_each (λ node (d : gmap str (gset str)),
                   ds ← descendants g node; Ok (<[node := ds]> d)) l d0
       = Ok d ∧
       ∀ n, d !! n = if decide (n ∈ l) then Some (desc_set g n)
                     else d0 !! n.
Proof.
  induction l as [|x l IH]; intros d0 Hl.
  { exists d0. split; [done|]. intros n.
    by rewrite decide_False by apply not_elem_of_nil. }
  destruct (descendants_ok g Hwf x) as (ds & Hrun & _); [set_solver|].
  assert (Hds : desc_set g x = ds) by (unfold desc_set; by rewrite Hrun).
  cbn [for_each]. rewrite Hrun. simpl.
  destruct (IH (<[x := ds]> d0)) as (d & Hrun' & Hd); [set_solver|].
  exists d. split; [done|]. intros n. rewrite Hd.
  destruct (decide (n ∈ l)) as [Hn|Hn].
  - rewrite decide_True by set_solver. done.
  - destruct (decide (n = x)) as [->|Hne].
    + rewrite decide_True by set_solver. by rewrite lookup_insert_eq, Hds.
    + rewrite decide_False by set_solver. by rewrite lookup_insert_ne.
Qed.

Lemma is_violation_unique s t v v' :
  is_violation g s t v → is_violation g s t v' → v = v'.
Proof.
  intros (_ & _ & _ & p1 & p2 & H1 & H2 & ->).
  intros (_ & _ & _ & p1' & p2' & H1' & H2' & ->). congruence.
Qed.

Lemma check_target_ok (d : gmap str (gset str)) s t vs :
  (∀ n, n ∈ g_nodes g → d !! n = Some (desc_set g n)) →
  s ∈ g_nodes g → t ∈ desc_set g s →
  ∃ vs', check_target g d s t vs = Ok vs' ∧
         ∀ v, v ∈ vs' ↔ v ∈ vs ∨ is_violation g s t v.
Proof.
  intros Hd Hs Ht. apply (desc_set_spec s t Hs) in Ht as [Hne Hst].
  assert (Htn : t ∈ g_nodes g).
  { destruct (reach_nodes g s t Hwf Hst) as [?|[_ ?]]; [congruence|done]. }
  unfold check_target, getitem. rewrite (Hd t Htn). simpl.
  destruct (decide (s ∈ desc_set g t)) as [Hback|Hback].
  - apply (desc_set_spec t s Htn) in Hback as [_ Hts].
    destruct (shortest_path_ok g Hwf s t Hs Hst) as (p1 & Hp1 & _).
    destruct (shortest_path_ok g Hwf t s Htn Hts) as (p2 & Hp2 & _).
    rewrite Hp1. simpl. rewrite Hp2. simpl.
    eexists. split; [done|].
    assert (Hv : is_violation g s t (Violation s t (p1 ++ drop 1 p2))).
    { split_and!; try done. by exists p1, p2. }
    intros v. rewrite elem_of_app, list_elem_of_singleton. split.
    + intros [?| ->]; auto.
    + intros [?|Hv']; [by left|right]. by eapply is_violation_unique.
  - exists vs. split; [done|]. intros v. split; [by left|].
    intros [?|(_ & _ & Hts & _)]; [done|].
    exfalso. apply Hback. apply (desc_set_spec t s Htn). split; [|done].
    congruence.
Qed.

(** The detector returns, and its entries are exactly the entries of
    the pairs of distinct nodes reachable from one another. *)
Lemma detect_violations_ok :
  ∃ vs, detect_broader_than_violations iter g = Ok vs ∧
        ∀ v, v ∈ vs ↔ ∃ s t, is_violation g s t v.
Proof.
  unfold detect_broader_than_violations.
  destruct (descendants_dict_ok (g_nodes g) ∅) as (d & Hrun & Hd); [done|].
  rewrite Hrun. simpl.
  assert (Hd' : ∀ n, n ∈ g_nodes g → d !! n = Some (desc_set g n)).
  { intros n Hn. by rewrite Hd, decide_True. }
  set (body := λ (source : str) (violations : list violation),
    reachable ← getitem d source;
    for_each (check_target g d source) (iter _ _ _ reachable) violations).
  assert (Hbody : ∀ s ws, s ∈ g_nodes g →
    ∃ ws', body s ws = Ok ws' ∧
           ∀ v, v ∈ ws' ↔ v ∈ ws ∨ ∃ t, is_violation g s t v).
  { intros s ws Hs. unfold body, getitem. rewrite (Hd' s Hs). simpl.
    pose proof (Hiter _ _ _ (desc_set g s)) as Hperm.
    assert (Hinner : ∀ t us, t ∈ iter _ _ _ (desc_set g s) →
      ∃ us', check_target g d s t us = Ok us' ∧
             ∀ v, v ∈ us' ↔ v ∈ us ∨ is_violation g s t v).
    { intros t us Ht. apply check_target_ok; [done..|].
      by rewrite Hperm, elem_of_elements in Ht. }
    destruct (for_each_collect (check_target g d s)
                (λ t v, is_violation g s t v) _ Hinner ws)
      as (ws' & Hrun' & Hws).
    exists ws'. split; [done|]. intros v. rewrite Hws.
    split; (intros [?|(t & Ht)]; [by left|right]).
    - exists t. apply Ht.
    - exists t. split; [|done].
      rewrite Hperm, elem_of_elements.
      apply desc_set_spec; [done|]. destruct Ht as (? & ? & _).
      split; [congruence|done]. }
  destruct (for_each_collect body (λ s v, ∃ t, is_violation g s t v)
              (g_nodes g) Hbody []) as (vs & Hrun' & Hvs).
  exists vs. split; [done|]. intros v. rewrite Hvs. split.
  - intros [?%elem_of_nil|(s & _ & t & ?)]; [done|]. by exists s, t.
  - intros (s & t & Hv). right. exists s. split; [|by exists t].
    destruct Hv as (Hne & Hst & _).
    by destruct (reach_nodes g s t Hwf Hst) as [?|[? _]].
Qed.
End violations.



(** The pairs that have an entry are the pairs of distinct nodes
    reachable from one another. *)
Lemma violation_pairs_spec g (ws : list violation) s t :
  wf_graph g →
  (∀ v, v ∈ ws ↔ ∃ s t, is_violation g s t v) →
  (∃ v, v ∈ ws ∧ v_source v = s ∧ v_target v = t) ↔
  s ≠ t ∧ reach g s t ∧ reach g t s.
Proof.
  intros Hwf Hws. split.
  - intros (v & (s' & t' & Hv)%Hws & <- & <-).
    destruct Hv as (? & ? & ? & p1 & p2 & _ & _ & ->). by simpl.
  - intros (Hne & Hst & Hts).
    destruct (reach_nodes g s t Hwf Hst) as [?|[Hs Ht]]; [done|].
    destruct (shortest_path_ok g Hwf s t Hs Hst) as (p1 & Hp1 & _).
    destruct (shortest_path_ok g Hwf t s Ht Hts) as (p2 & Hp2 & _).
    exists (Violation s t (p1 ++ drop 1 p2)). split; [|done].
    apply Hws. exists s, t. split_and!; try done. by exists p1, p2.
Qed.

(** C2: the detector returns, and its result has an entry for the ordered
    pair (source, target) exactly when source and target differ and each
    is reachable from the other, so both orderings of such a pair are
    there; the path of an entry whose two nodes are joined by an edge in
    each direction is source, target, source. *)
Theorem violations_iff_mutual_reach (iter : set_order) (g : DiGraph) :
  wf_graph g → valid_order iter →
  ∃ vs, detect_broader_than_violations iter g = Ok vs ∧
        (∀ s t, (∃ v, v ∈ vs ∧ v_source v = s ∧ v_target v = t) ↔
                s ≠ t ∧ reach g s t ∧ reach g t s) ∧
        (∀ a b, a ≠ b → reach g a b → reach g b a →
           (∃ v, v ∈ vs ∧ v_source v = a ∧ v_target v = b) ∧
           (∃ v, v ∈ vs ∧ v_source v = b ∧ v_target v = a)) ∧
        (∀ v, v ∈ vs →
           (v_source v, v_target v) ∈ g_edges g →
           (v_target v, v_source v) ∈ g_edges g →
           circular_path v = [v_source v; v_target v; v_source v]).
Proof.
  intros Hwf Hiter.
  destruct (detect_violations_ok g Hwf iter Hiter) as (vs & Hrun & Hvs).
  exists vs. split_and!; [done| | |].
  - intros s t. by apply violation_pairs_spec.
  - intros a b Hne Hab Hba.
    split; apply (violation_pairs_spec g vs _ _ Hwf Hvs); auto.
  - intros v (s & t & Hne & _ & _ & p1 & p2 & Hp1 & Hp2 & ->)%Hvs. simpl.
    intros Hst Hts.
    rewrite (shortest_path_edge g Hwf s t Hst Hne) in Hp1.
    rewrite (shortest_path_edge g Hwf t s Hts) in Hp2 by done.
    by simplify_eq.
Qed.

Lemma violations_iff_mutual_reach_witness :
  wf_graph two_cycle ∧ valid_order iter_elements ∧
  ∃ vs, detect_broader_than_violations iter_elements two_cycle = Ok vs ∧
        (∀ s t, (∃ v, v ∈ vs ∧ v_source v = s ∧ v_target v = t) ↔
                s ≠ t ∧ reach two_cycle s t ∧ reach two_cycle t s) ∧
        (∀ a b, a ≠ b → reach two_cycle a b → reach two_cycle b a →
           (∃ v, v ∈ vs ∧ v_source v = a ∧ v_target v = b) ∧
           (∃ v, v ∈ vs ∧ v_source v = b ∧ v_target v = a)) ∧
        (∀ v, v ∈ vs →
           (v_source v, v_target v) ∈ g_edges two_cycle →
           (v_target v, v_source v) ∈ g_edges two_cycle →
           circular_path v = [v_source v; v_target v; v_source v]).
Proof.
  split; [exact two_cycle_wf|]. split; [exact iter_elements_valid|].
  exact (violations_iff_mutual_reach iter_elements two_cycle
           two_cycle_wf iter_elements_valid).
Defined.

(** C10: the detector returns, and the circular path of every entry
    starts at the source of the entry, ends at it, passes through the
    target, and each of its consecutive pairs is an edge of the graph. *)
Theorem circular_path_valid (iter : set_order) (g : DiGraph) :
  wf_graph g → valid_order iter →
  ∃ vs, detect_broader_than_violations iter g = Ok vs ∧
        ∀ v, v ∈ vs →
          head (circular_path v) = Some (v_source v) ∧
          last (circular_path v) = Some (v_source v) ∧
          v_target v ∈ circular_path v ∧
          is_path g (circular_path v).
Proof.
  intros Hwf Hiter.
  destruct (detect_violations_ok g Hwf iter Hiter) as (vs & Hrun & Hvs).
  exists vs. split; [done|].
  intros v (s & t & Hne & Hst & Hts & p1 & p2 & Hp1 & Hp2 & ->)%Hvs. simpl.
  destruct (reach_nodes g s t Hwf Hst) as [?|[Hs Ht]]; [done|].
  destruct (shortest_path_ok g Hwf s t Hs Hst)
    as (q1 & Hq1 & Hpath1 & Hh1 & Hl1).
  destruct (shortest_path_ok g Hwf t s Ht Hts)
    as (q2 & Hq2 & Hpath2 & Hh2 & Hl2).
  assert (q1 = p1) as -> by congruence.
  assert (q2 = p2) as -> by congruence.
  clear Hq1 Hq2 Hp1 Hp2.
  destruct p2 as [|t' [|y p2]]; [done| |].
  { simpl in Hh2, Hl2. congruence. }
  injection Hh2 as ->. rewrite last_cons_cons in Hl2.
  change (drop 1 (t :: y :: p2)) with (y :: p2).
  split_and!.
  - by destruct p1.
  - by rewrite last_app, Hl2.
  - apply elem_of_app. left. by apply last_Some_elem_of.
  - by apply (is_path_app g p1 t).
Qed.

Lemma circular_path_valid_witness :
  wf_graph two_cycle ∧ valid_order iter_elements ∧
  ∃ vs, detect_broader_than_violations iter_elements two_cycle = Ok vs ∧
        ∀ v, v ∈ vs →
          head (circular_path v) = Some (v_source v) ∧
          last (circular_path v) = Some (v_source v) ∧
          v_target v ∈ circular_path v ∧
          is_path two_cycle (circular_path v).
Proof.
  split; [exact two_cycle_wf|]. split; [exact iter_elements_valid|].
  exact (circular_path_valid iter_elements two_cycle
           two_cycle_wf iter_elements_valid).
Defined.

(* ================================================================== *)
(** * The scenarios of the specification *)

(** Scenario 1: one PAR record gives one parent-child edge and no cycle. *)
Example scenario_1 :
  elements (parent_child_edges (parse_lines [rrf_line A PAR B])) = [(A, B)] ∧
  analyze_parent_child_relations iter_elements [rrf_line A PAR B] = Ok [].
Proof. split; by vm_compute. Qed.

(** Scenario 2: two opposite PAR records give one cycle, A B. *)
Example scenario_2 :
  analyze_parent_child_relations iter_elements
    [rrf_line A PAR B; rrf_line B PAR A]
  = Ok [CycleInfo [A; B] [[A; B]; [B; A]]] ∧
  normalize_cycle [B; A] = Ok [A; B].
Proof. split; by vm_compute. Qed.

(** Scenario 3: a CHD record from A to A is a self-loop and no edge. *)
Example scenario_3 :
  elements (self_loops (parse_lines [rrf_line A CHD A])) = [(A, CHD)] ∧
  parent_child_edges (parse_lines [rrf_line A CHD A]) = ∅.
Proof. split; by vm_compute. Qed.

(** Scenario 4: two opposite RB records are reported in both orders, each
    with a path of three nodes. *)
Example scenario_4 :
  detect_broader_than_violations iter_elements two_cycle
  = Ok [Violation A B [A; B; A]; Violation B A [B; A; B]].
Proof. by vm_compute. Qed.

(* ================================================================== *)
(** * Repeated runs *)


Lemma for_each_ext {X S : Type} (f f' : X → S → res S) l s :
  (∀ x s, f x s = f' x s) → for_each f l s = for_each f' l s.
Proof.
  intros Hext. revert s. induction l as [|x l IH]; intros s; [done|].
  simpl. rewrite Hext. destruct (f' x s); simpl; auto.
Qed.

Lemma validate_cycle_same g1 g2 c :
  same_graph g1 g2 → validate_cycle g1 c = validate_cycle g2 c.
Proof.
  intros [_ He]. apply eq_iff_eq_true. rewrite !validate_cycle_closed.
  unfold closed_path. by setoid_rewrite He.
Qed.

Lemma successors_same g1 g2 n :
  same_graph g1 g2 → successors g1 n ≡ₚ successors g2 n.
Proof. intros [_ He]. unfold successors. by rewrite He. Qed.

(** The search does not depend on the order in which the nodes and the
    edges were inserted in the graph. *)
Lemma dfs_cycle_same g1 g2 :
  same_graph g1 g2 →
  ∀ fuel node st, dfs_cycle g1 fuel node st = dfs_cycle g2 fuel node st.
Proof.
  intros Hg. induction fuel as [|fuel IH]; intros node st; [done|]. simpl.
  destruct (decide (node ∈ rec_stack st)).
  - destruct (index node (path st)); simpl; try done.
    destruct (normalize_cycle _); simpl; try done.
    by rewrite (validate_cycle_same g1 g2 _ Hg).
  - destruct (decide (node ∈ visited st)); [done|].
    unfold neighbors. destruct Hg as [Hn He].
    destruct (decide (node ∈ g_nodes g1)) as [H1|H1],
             (decide (node ∈ g_nodes g2)) as [H2|H2]; simpl; try done.
    + rewrite (sorted_perm _ _ (successors_same g1 g2 node (conj Hn He))).
      by rewrite (for_each_ext _ _ _ _ (IH)).
    + by rewrite Hn in H1.
    + by rewrite <-Hn in H2.
Qed.

Lemma detect_cycles_same g1 g2 :
  same_graph g1 g2 → detect_cycles g1 = detect_cycles g2.
Proof.
  intros Hg. unfold detect_cycles.
  rewrite (sorted_perm (g_nodes g1) (g_nodes g2)) by apply Hg.
  rewrite (Permutation_length (proj1 Hg)).
  f_equal. apply for_each_ext. intros node st.
  case_decide; [|done]. by apply dfs_cycle_same.
Qed.

Lemma add_edge_NoDup e g :
  NoDup (g_nodes g) → NoDup (g_edges g) →
  NoDup (g_nodes (add_edge e g)) ∧ NoDup (g_edges (add_edge e g)).
Proof.
  intros Hn He.
  assert (Hadd : ∀ n h, NoDup (g_nodes h) → NoDup (g_nodes (add_node n h))).
  { intros n h Hh. unfold add_node. case_decide; simpl; [done|].
    apply NoDup_app. split_and!; [done| |apply NoDup_singleton].
    by intros x ? ->%list_elem_of_singleton. }
  unfold add_edge. case_decide; simpl; rewrite ?add_node_edges in *.
  - split; [by do 2 apply Hadd|done].
  - split; [by do 2 apply Hadd|].
    apply NoDup_app. split_and!; [done| |apply NoDup_singleton].
    by intros x ? ->%list_elem_of_singleton.
Qed.

Lemma add_edges_from_NoDup es g :
  NoDup (g_nodes g) → NoDup (g_edges g) →
  NoDup (g_nodes (add_edges_from es g)) ∧
  NoDup (g_edges (add_edges_from es g)).
Proof.
  unfold add_edges_from. revert g.
  induction es as [|e es IH]; intros g Hn He; simpl; [done|].
  by apply IH; apply add_edge_NoDup.
Qed.

Lemma add_edges_from_nodes es g x :
  x ∈ g_nodes (add_edges_from es g) ↔
  x ∈ g_nodes g ∨ ∃ e, e ∈ es ∧ (x = e.1 ∨ x = e.2).
Proof.
  unfold add_edges_from. revert g.
  induction es as [|e es IH]; intros g; simpl.
  { split; [by left|]. intros [?|(?&?%elem_of_nil&_)]; done. }
  rewrite IH, add_edge_nodes. split.
  - intros [[?|[?|?]]|(e' & ? & ?)]; [right; exists e..|by left|right].
    + split; [apply list_elem_of_here|by left].
    + split; [apply list_elem_of_here|by right].
    + exists e'. split; [by apply list_elem_of_further|done].
  - intros [?|(e' & [->|?]%elem_of_cons & ?)]; [tauto|tauto|].
    right. by exists e'.
Qed.

(** Edge lists with the same elements build the same graph. *)
Lemma add_edges_from_same es1 es2 :
  es1 ≡ₚ es2 →
  same_graph (add_edges_from es1 empty_graph) (add_edges_from es2 empty_graph).
Proof.
  intros Hp.
  destruct (add_edges_from_NoDup es1 empty_graph) as [Hn1 He1];
    [constructor..|].
  destruct (add_edges_from_NoDup es2 empty_graph) as [Hn2 He2];
    [constructor..|].
  split; apply NoDup_Permutation; try done.
  - intros x. rewrite !add_edges_from_nodes. by setoid_rewrite Hp.
  - intros x. rewrite !add_edges_from_edges. by rewrite Hp.
Qed.

(** Two runs of the parent-child analysis on the same file return the
    same list of cycles, however the runs enumerate the edge set. *)
Lemma cycles_independent_of_order iter1 iter2 lines :
  valid_order iter1 → valid_order iter2 →
  analyze_parent_child_relations iter1 lines
  = analyze_parent_child_relations iter2 lines.
Proof.
  intros H1 H2. unfold analyze_parent_child_relations, parse_umls.
  apply detect_cycles_same, add_edges_from_same.
  by rewrite (H1 _ _ _ _), (H2 _ _ _ _).
Qed.

(** Two runs of the broader-than analysis on the same file report the
    same pairs. *)
Lemma violation_pairs_independent_of_order iter1 iter2 lines vs1 vs2 s t :
  valid_order iter1 → valid_order iter2 →
  analyze_broader_than_relations iter1 lines = Ok vs1 →
  analyze_broader_than_relations iter2 lines = Ok vs2 →
  (∃ v, v ∈ vs1 ∧ v_source v = s ∧ v_target v = t) ↔
  (∃ v, v ∈ vs2 ∧ v_source v = s ∧ v_target v = t).
Proof.
  intros H1 H2. unfold analyze_broader_than_relations, parse_umls.
  set (bt := broader_than_edges (parse_lines lines)).
  set (g1 := add_edges_from (iter1 _ _ _ bt) empty_graph).
  set (g2 := add_edges_from (iter2 _ _ _ bt) empty_graph).
  assert (Hwf1 : wf_graph g1) by apply add_edges_from_wf, empty_graph_wf.
  assert (Hwf2 : wf_graph g2) by apply add_edges_from_wf, empty_graph_wf.
  assert (Hsame : same_graph g1 g2).
  { apply add_edges_from_same. by rewrite (H1 _ _ _ _), (H2 _ _ _ _). }
  intros Hr1 Hr2.
  destruct (detect_violations_ok g1 Hwf1 iter1 H1) as (ws1 & Hw1 & Hv1).
  destruct (detect_violations_ok g2 Hwf2 iter2 H2) as (ws2 & Hw2 & Hv2).
  rewrite Hr1 in Hw1. rewrite Hr2 in Hw2. simplify_eq.
  assert (Hreach : ∀ a b, reach g1 a b ↔ reach g2 a b).
  { intros a b. unfold reach. destruct Hsame as [_ He].
    split; apply rtc_subrel; intros x y; by rewrite He. }
  rewrite (violation_pairs_spec g1 ws1 s t Hwf1 Hv1).
  rewrite (violation_pairs_spec g2 ws2 s t Hwf2 Hv2).
  by rewrite !Hreach.
Qed.

(** C8 fails on the code: the search for cycles sorts the nodes and the
    neighbours it iterates over, the search for violations does not.  Two
    runs on the same file that enumerate the set of broader-than edges in
    different orders build the same graph with its edges inserted in
    different orders, and report different circular paths for the pair
    (A, D). *)
Theorem violation_paths_depend_on_order :
  valid_order iter_elements ∧ valid_order iter_reverse ∧
  ∃ vs1 vs2,
    analyze_broader_than_relations iter_elements diamond_lines = Ok vs1 ∧
    analyze_broader_than_relations iter_reverse diamond_lines = Ok vs2 ∧
    Violation A D [A; C; D; A] ∈ vs1 ∧
    (Violation A D [A; C; D; A] ∉ vs2) ∧
    Violation A D [A; B; D; A] ∈ vs2.
Proof.
  split; [apply iter_elements_valid|]. split; [apply iter_reverse_valid|].
  eexists _, _. split; [by vm_compute|]. split; [by vm_compute|].
  split_and!; compute_done.
Qed.


(* ================================================================== *)
(** * Further properties of the parser *)

Lemma process_fields_types source rel target st r :
  r ∈ relationship_types (process_fields source rel target st) ↔
  r = rel ∨ r ∈ relationship_types st.
Proof.
  unfold process_fields.
  repeat (case_decide; simpl); set_solver.
Qed.

Lemma relationship_types_spec (lines : list str) (rel : str) :
  rel ∈ relationship_types (parse_lines lines) ↔
  ∃ line source target,
    line ∈ lines ∧ record_of line = Some (source, rel, target).
Proof.
  induction lines as [|line lines IH] using rev_ind.
  { split; [set_solver|]. intros (?&?&?&Hin&_). set_solver. }
  rewrite parse_lines_snoc, parse_line_record.
  destruct (record_of line) as [[[s r] t]|] eqn:Hrec.
  - rewrite process_fields_types, IH. split.
    + intros [->|(l&s'&t'&Hin&?)].
      * exists line, s, t. rewrite elem_of_app, list_elem_of_singleton. tauto.
      * exists l, s', t'. rewrite elem_of_app. tauto.
    + intros (l&s'&t'&Hin&Hr).
      apply elem_of_app in Hin as [Hin|Hin%list_elem_of_singleton].
      * right. by exists l, s', t'.
      * subst l. rewrite Hrec in Hr. simplify_eq. by left.
  - rewrite IH. split.
    + intros (l&s'&t'&Hin&?). exists l, s', t'. rewrite elem_of_app. tauto.
    + intros (l&s'&t'&Hin&Hr).
      apply elem_of_app in Hin as [Hin|Hin%list_elem_of_singleton].
      * by exists l, s', t'.
      * subst l. by rewrite Hrec in Hr.
Qed.

(** X1: the [try] block of the parser raises on no line, so its handler
    never runs: the fields 0, 3 and 4 are read only from a line with at
    least five fields.  A line that is not skipped updates the
    accumulators from these three fields, trimmed, whatever the other
    fields hold. *)
Theorem loop_body_never_raises (line : str) (st : parse_state) :
  (∃ st', try_body line st = Ok st') ∧
  parse_line line st =
    match record_of line with
    | Some (source, rel, target) => process_fields source rel target st
    | None => st
    end.
Proof. split; [apply try_body_ok|apply parse_line_record]. Qed.

(** X2: the set of relation types holds exactly the codes of the lines
    that are not skipped: the codes of self-loops and the codes that
    produce no edge are recorded too. *)
Theorem relationship_types_exact (lines : list str) (rel : str) :
  rel ∈ relationship_types (parse_lines lines) ↔
  ∃ line source target,
    line ∈ lines ∧ record_of line = Some (source, rel, target).
Proof. apply relationship_types_spec. Qed.

(** X3: the self-loop set holds exactly the pairs (concept, code) of the
    records whose source and target are the same concept, whatever the
    code. *)
Theorem self_loops_exact (lines : list str) (p : str * str) :
  p ∈ self_loops (parse_lines lines) ↔
  ∃ line source rel,
    line ∈ lines ∧ record_of line = Some (source, rel, source) ∧
    p = (source, rel).
Proof. apply self_loops_spec. Qed.

Lemma process_fields_dom source rel target st :
  dom (duplicate_edges st) = parent_child_edges st ∪ broader_than_edges st →
  dom (duplicate_edges (process_fields source rel target st))
  = parent_child_edges (process_fields source rel target st)
    ∪ broader_than_edges (process_fields source rel target st).
Proof.
  intros Hdom. unfold process_fields, counter_incr.
  repeat (case_decide; simpl); rewrite ?dom_insert_L, ?Hdom; set_solver.
Qed.

Lemma counter_dom_spec (lines : list str) :
  dom (duplicate_edges (parse_lines lines))
  = parent_child_edges (parse_lines lines)
    ∪ broader_than_edges (parse_lines lines).
Proof.
  induction lines as [|line lines IH] using rev_ind.
  { unfold parse_lines. simpl. set_solver. }
  rewrite parse_lines_snoc, parse_line_record.
  destruct (record_of line) as [[[s r] t]|]; [|done].
  by apply process_fields_dom.
Qed.

(** X4: the keys of the occurrence counter are exactly the edges of the
    two edge sets together, and every count is at least 1. *)
Theorem counter_keys_are_edges (lines : list str) :
  dom (duplicate_edges (parse_lines lines))
  = parent_child_edges (parse_lines lines)
    ∪ broader_than_edges (parse_lines lines) ∧
  ∀ e n, duplicate_edges (parse_lines lines) !! e = Some n → 1 ≤ n.
Proof.
  split.
  - induction lines as [|line lines IH] using rev_ind.
    { unfold parse_lines. simpl. set_solver. }
    rewrite parse_lines_snoc, parse_line_record.
    destruct (record_of line) as [[[s r] t]|]; [|done].
    by apply process_fields_dom.
  - intros e n. rewrite counter_spec.
    destruct (occurrences e lines); [done|]. intros [= <-]. lia.
Qed.

Lemma occurrences_perm e lines1 lines2 :
  lines1 ≡ₚ lines2 → occurrences e lines1 = occurrences e lines2.
Proof. intros Hp. unfold occurrences. by rewrite Hp. Qed.

(** X5: the parser does not depend on the order of the lines: two files
    with the same lines in a different order give the same five
    accumulators. *)
Theorem parse_order_irrelevant (lines1 lines2 : list str) :
  lines1 ≡ₚ lines2 → parse_lines lines1 = parse_lines lines2.
Proof.
  intros Hp.
  assert (Hpc : parent_child_edges (parse_lines lines1)
                = parent_child_edges (parse_lines lines2)).
  { apply set_eq. intros e.
    rewrite (proj1 (edge_sets_spec lines1 e)), (proj1 (edge_sets_spec lines2 e)).
    by setoid_rewrite Hp. }
  assert (Hbt : broader_than_edges (parse_lines lines1)
                = broader_than_edges (parse_lines lines2)).
  { apply set_eq. intros e.
    rewrite (proj2 (edge_sets_spec lines1 e)), (proj2 (edge_sets_spec lines2 e)).
    by setoid_rewrite Hp. }
  assert (Hty : relationship_types (parse_lines lines1)
                = relationship_types (parse_lines lines2)).
  { apply set_eq. intros r. rewrite !relationship_types_spec.
    by setoid_rewrite Hp. }
  assert (Hdup : duplicate_edges (parse_lines lines1)
                 = duplicate_edges (parse_lines lines2)).
  { apply map_eq. intros e.
    by rewrite !counter_spec, (occurrences_perm e lines1 lines2 Hp). }
  assert (Hsl : self_loops (parse_lines lines1)
                = self_loops (parse_lines lines2)).
  { apply set_eq. intros p. rewrite !self_loops_spec. by setoid_rewrite Hp. }
  destruct (parse_lines lines1), (parse_lines lines2). simpl in *.
  by subst.
Qed.

Lemma parse_order_irrelevant_witness :
  [rrf_line A PAR B; rrf_line C RB D] ≡ₚ [rrf_line C RB D; rrf_line A PAR B] ∧
  parse_lines [rrf_line A PAR B; rrf_line C RB D]
  = parse_lines [rrf_line C RB D; rrf_line A PAR B].
Proof.
  assert (Hp : [rrf_line A PAR B; rrf_line C RB D]
               ≡ₚ [rrf_line C RB D; rrf_line A PAR B]) by apply perm_swap.
  split; [exact Hp|]. exact (parse_order_irrelevant _ _ Hp).
Defined.

(* ================================================================== *)
(** * The cycle detector on graphs with and without cycles *)

Lemma index_lookup x l i : index x l = Ok i → l !! i = Some x.
Proof.
  revert i. induction l as [|y l IH]; intros i; simpl; [done|].
  destruct (decide (y = x)) as [->|Hne].
  - by intros [= <-].
  - destruct (index x l) as [j| |]; simpl; try done.
    intros [= <-]. by apply IH.
Qed.








Section quiet_search.
Context (g : DiGraph) (Hwf : wf_graph g).




End quiet_search.





(* ================================================================== *)
(** * Canonical form and validation *)

(** X7: [normalize_cycle] raises [ValueError] exactly on the empty list;
    otherwise its result has the nodes of the cycle, in another order,
    and is its own canonical form. *)
Theorem normalize_cycle_idempotent (c : list str) :
  (c = [] → normalize_cycle c = Raise ValueError) ∧
  (c ≠ [] → ∃ n, normalize_cycle c = Ok n) ∧
  (∀ n, normalize_cycle c = Ok n → n ≡ₚ c ∧ normalize_cycle n = Ok n).
Proof.
  split_and!.
  - by intros ->.
  - apply normalize_cycle_ok.
  - intros n. unfold normalize_cycle at 1.
    destruct (py_min c) as [m| |] eqn:Hm; simpl; try done.
    destruct (index m c) as [i| |] eqn:Hi; simpl; try done.
    intros [= <-].
    assert (Hperm : drop i c ++ take i c ≡ₚ c).
    { by rewrite Permutation_app_comm, take_drop. }
    split; [done|].
    apply index_lookup in Hi.
    unfold normalize_cycle.
    rewrite (py_min_perm _ _ Hperm), Hm. simpl.
    rewrite (drop_S _ _ _ Hi). simpl. rewrite decide_True by done. simpl.
    do 2 f_equal. apply app_nil_r.
Qed.

Lemma rotate_app_length {X} (l2 l1 : list X) :
  rotate (length l2) (l2 ++ l1) = l1 ++ l2.
Proof.
  unfold rotate. rewrite length_app.
  destruct l1 as [|x l1].
  - simpl. rewrite Nat.add_0_r, Nat.Div0.mod_same. simpl.
    by rewrite !app_nil_r.
  - rewrite Nat.mod_small by (simpl; lia).
    by rewrite drop_app_length, take_app_length.
Qed.

Lemma closed_path_rotate_1 g k c :
  closed_path g c → closed_path g (rotate k c).
Proof.
  intros Hc i u v Hu Hv. rewrite length_rotate in Hv.
  apply lookup_rotate_r_Some in Hu as [Hu Hi].
  apply lookup_rotate_r_Some in Hv as [Hv _].
  apply (Hc _ u v Hu). rewrite <-Hv. f_equal.
  unfold rotate_nat_add. apply Nat2Z.inj.
  rewrite Nat2Z.inj_mod, Nat2Z.inj_add, !Z2Nat.id, Nat2Z.inj_mod,
    Nat2Z.inj_add by (apply Z.mod_pos; lia).
  rewrite Zplus_mod_idemp_l, Zplus_mod_idemp_r. f_equal. lia.
Qed.

Lemma closed_path_rotate g k c :
  closed_path g (rotate k c) ↔ closed_path g c.
Proof.
  split; [|apply closed_path_rotate_1].
  intros Hc. unfold rotate in Hc.
  apply (closed_path_rotate_1 g (length (drop (k `mod` length c) c))) in Hc.
  by rewrite rotate_app_length, take_drop in Hc.
Qed.

(** X8: [validate_cycle] gives the same answer for a cycle and for each
    of its rotations: whether a candidate is accepted does not depend on
    the node the search met it at. *)
Theorem validate_cycle_rotate (g : DiGraph) (k : nat) (c : list str) :
  validate_cycle g (rotate k c) = validate_cycle g c.
Proof.
  apply eq_iff_eq_true. rewrite !validate_cycle_closed.
  apply closed_path_rotate.
Qed.

(* ================================================================== *)
(** * The two detectors on the same graph *)






(* ================================================================== *)
(** * Every pair is reported once *)

Lemma for_each_NoDup {X V K : Type} (key : V → K) (owner : V → X)
    (R : V → Prop) (body : X → list V → res (list V)) (l : list X) :
  NoDup l →
  (∀ v v', key v = key v' → owner v = owner v') →
  (∀ x vs, x ∈ l →
     ∃ new, body x vs = Ok (vs ++ new) ∧ NoDup (key <$> new) ∧
            ∀ v, v ∈ new → owner v = x ∧ R v) →
  ∀ vs, ∃ new, for_each body l vs = Ok (vs ++ new) ∧ NoDup (key <$> new) ∧
               ∀ v, v ∈ new → owner v ∈ l ∧ R v.
Proof.
  intros Hnd Hkey. induction l as [|x l IH]; intros Hbody vs.
  { exists []. rewrite app_nil_r. split_and!; [done|constructor|].
    by intros ? ?%elem_of_nil. }
  apply NoDup_cons in Hnd as [Hx Hnd].
  destruct (Hbody x vs) as (n1 & Hrun1 & Hnd1 & Hown1);
    [apply list_elem_of_here|].
  destruct (IH Hnd (λ y ws Hy, Hbody y ws (list_elem_of_further _ _ _ Hy))
              (vs ++ n1)) as (n2 & Hrun2 & Hnd2 & Hown2).
  exists (n1 ++ n2). simpl. rewrite Hrun1. simpl.
  rewrite Hrun2, (assoc_L (++)). split_and!; [done| |].
  - rewrite fmap_app. apply NoDup_app. split_and!; [done| |done].
    intros k (v1 & -> & Hv1)%list_elem_of_fmap (v2 & Hk & Hv2)%list_elem_of_fmap.
    apply Hkey in Hk. destruct (Hown1 v1 Hv1) as [Ho1 _].
    destruct (Hown2 v2 Hv2) as [Ho2 _]. apply Hx. congruence.
  - intros v [Hv|Hv]%elem_of_app.
    + destruct (Hown1 v Hv) as [-> ?]. split; [apply list_elem_of_here|done].
    + destruct (Hown2 v Hv). split; [by apply list_elem_of_further|done].
Qed.

Section reported_once.
Context (g : DiGraph) (Hwf : wf_graph g).
Context (iter : set_order) (Hiter : valid_order iter).

(** One target adds at most one entry, for the pair at hand. *)
Lemma check_target_adds (d : gmap str (gset str)) s t vs :
  (∀ n, n ∈ g_nodes g → d !! n = Some (desc_set g n)) →
  s ∈ g_nodes g → t ∈ desc_set g s →
  ∃ new, check_target g d s t vs = Ok (vs ++ new) ∧
         NoDup (v_target <$> new) ∧
         ∀ v, v ∈ new → v_target v = t ∧ v_source v = s.
Proof.
  intros Hd Hs Ht.
  apply (desc_set_spec g Hwf s t Hs) in Ht as [Hne Hst].
  assert (Htn : t ∈ g_nodes g).
  { destruct (reach_nodes g s t Hwf Hst) as [?|[_ ?]]; [congruence|done]. }
  unfold check_target, getitem. rewrite (Hd t Htn). simpl.
  destruct (decide (s ∈ desc_set g t)) as [Hback|Hback].
  - apply (desc_set_spec g Hwf t s Htn) in Hback as [_ Hts].
    destruct (shortest_path_ok g Hwf s t Hs Hst) as (p1 & Hp1 & _).
    destruct (shortest_path_ok g Hwf t s Htn Hts) as (p2 & Hp2 & _).
    rewrite Hp1. simpl. rewrite Hp2. simpl.
    eexists [_]. split_and!; [done|apply NoDup_singleton|].
    by intros v ->%list_elem_of_singleton.
  - exists []. rewrite app_nil_r. split_and!; [done|constructor|].
    by intros ? ?%elem_of_nil.
Qed.

Lemma NoDup_pairs s (new : list violation) :
  (∀ v, v ∈ new → v_source v = s) →
  NoDup (v_target <$> new) →
  NoDup ((λ v, (v_source v, v_target v)) <$> new).
Proof.
  induction new as [|v new IH]; intros Hs Hnd; [constructor|].
  rewrite fmap_cons in *. apply NoDup_cons in Hnd as [Hv Hnd].
  apply NoDup_cons. split; [|apply IH; [|done]].
  - intros (v' & Heq & Hv')%list_elem_of_fmap. apply Hv.
    apply list_elem_of_fmap. exists v'. split; [congruence|done].
  - intros v' Hv'. apply Hs. by right.
Qed.

Lemma violations_NoDup :
  NoDup (g_nodes g) →
  ∃ vs, detect_broader_than_violations iter g = Ok vs ∧
        NoDup ((λ v, (v_source v, v_target v)) <$> vs).
Proof.
  intros Hnodes. unfold detect_broader_than_violations.
  destruct (descendants_dict_ok g Hwf iter Hiter (g_nodes g) ∅)
    as (d & Hrun & Hd); [done|].
  rewrite Hrun. simpl.
  assert (Hd' : ∀ n, n ∈ g_nodes g → d !! n = Some (desc_set g n)).
  { intros n Hn. by rewrite Hd, decide_True. }
  set (body := λ (source : str) (violations : list violation),
    reachable ← getitem d source;
    for_each (check_target g d source) (iter _ _ _ reachable) violations).
  assert (Hbody : ∀ s ws, s ∈ g_nodes g →
    ∃ new, body s ws = Ok (ws ++ new) ∧
           NoDup ((λ v, (v_source v, v_target v)) <$> new) ∧
           ∀ v, v ∈ new → v_source v = s ∧ True).
  { intros s ws Hs. unfold body, getitem. rewrite (Hd' s Hs). simpl.
    pose proof (Hiter _ _ _ (desc_set g s)) as Hperm.
    destruct (for_each_NoDup v_target v_target (λ v, v_source v = s)
                (check_target g d s) (iter _ _ _ (desc_set g s)))
      with (vs := ws) as (new & Hrun' & Hnd & Hown).
    - rewrite Hperm. apply NoDup_elements.
    - done.
    - intros t us Ht. apply check_target_adds; [done..|].
      by rewrite Hperm, elem_of_elements in Ht.
    - exists new. split_and!; [done| |].
      + apply (NoDup_pairs s); [|done]. intros v Hv. by apply Hown.
      + intros v Hv. split; [by apply Hown|done]. }
  destruct (for_each_NoDup (λ v, (v_source v, v_target v)) v_source
              (λ _, True) body (g_nodes g) Hnodes) with (vs := @nil violation)
    as (new & Hrun' & Hnd & _).
  - by intros v v' [= ? _].
  - done.
  - exists new. by split.
Qed.
End reported_once.

(** X10: the violation detector reports every ordered pair at most once:
    no two entries of its result have the same source and the same
    target. *)
Theorem violations_reported_once (iter : set_order) (g : DiGraph) :
  wf_graph g → NoDup (g_nodes g) → valid_order iter →
  ∃ vs, detect_broader_than_violations iter g = Ok vs ∧
        ∀ i j vi vj, vs !! i = Some vi → vs !! j = Some vj →
                     v_source vi = v_source vj → v_target vi = v_target vj →
                     i = j.
Proof.
  intros Hwf Hnodes Hiter.
  destruct (violations_NoDup g Hwf iter Hiter Hnodes) as (vs & Hrun & Hnd).
  exists vs. split; [done|]. intros i j vi vj Hi Hj Hs Ht.
  apply (NoDup_lookup _ i j (v_source vi, v_target vi) Hnd).
  - by rewrite list_lookup_fmap, Hi.
  - rewrite list_lookup_fmap, Hj. simpl. by rewrite Hs, Ht.
Qed.

Lemma violations_reported_once_witness :
  wf_graph two_cycle ∧ NoDup (g_nodes two_cycle) ∧
  valid_order iter_elements ∧
  ∃ vs, detect_broader_than_violations iter_elements two_cycle = Ok vs ∧
        ∀ i j vi vj, vs !! i = Some vi → vs !! j = Some vj →
                     v_source vi = v_source vj → v_target vi = v_target vj →
                     i = j.
Proof.
  assert (Hnd : NoDup (g_nodes two_cycle)) by compute_done.
  split_and!; [exact two_cycle_wf|exact Hnd|exact iter_elements_valid|].
  exact (violations_reported_once iter_elements two_cycle two_cycle_wf Hnd
           iter_elements_valid).
Defined.

(* ================================================================== *)
(** * The two analyses, from the file to the report *)









(* ================================================================== *)
(** * The statistics *)

Lemma length_filter_snd {K V} (Q : V → Prop) `{∀ v, Decision (Q v)}
    (l : list (K * V)) :
  length (filter Q l.*2) = length (filter (λ kv, Q kv.2) l).
Proof.
  induction l as [|[k v] l IH]; [done|].
  rewrite fmap_cons, !filter_cons. simpl.
  destruct (decide (Q v)); simpl; by rewrite IH.
Qed.

Lemma NoDup_filter_fst {K V} (P : K * V → Prop) `{∀ kv, Decision (P kv)}
    (l : list (K * V)) :
  NoDup l.*1 → NoDup (filter P l).*1.
Proof.
  induction l as [|kv l IH]; [done|].
  rewrite fmap_cons, NoDup_cons. intros [Hkv Hnd].
  rewrite filter_cons. destruct (decide (P kv)); [|by apply IH].
  rewrite fmap_cons. apply NoDup_cons. split; [|by apply IH].
  intros (kv' & Heq & [_ Hin]%list_elem_of_filter)%list_elem_of_fmap.
  apply Hkv. apply list_elem_of_fmap. by exists kv'.
Qed.

(** The count of duplicates is the number of edges, of either category,
    that two records or more orient to. *)
Lemma count_duplicates_spec (lines : list str) :
  count_duplicates (duplicate_edges (parse_lines lines))
  = size (duplicated_edges lines).
Proof.
  unfold count_duplicates. rewrite length_filter_snd.
  set (m := duplicate_edges (parse_lines lines)).
  set (L := filter (λ kv : edge * nat, 1 < kv.2) (map_to_list m)).
  rewrite <-(length_fmap fst L). unfold size, set_size. simpl.
  apply Permutation_length, NoDup_Permutation.
  - apply NoDup_filter_fst, NoDup_fst_map_to_list.
  - apply NoDup_elements.
  - intros e. rewrite elem_of_elements. unfold duplicated_edges.
    rewrite elem_of_filter.
    rewrite <-(counter_dom_spec lines).
    rewrite elem_of_dom, list_elem_of_fmap. split.
    + intros ([e' n] & -> & [Hn Hin]%list_elem_of_filter). simpl in *.
      apply elem_of_map_to_list in Hin. split; [|by eexists].
      unfold m in Hin. rewrite counter_spec in Hin.
      destruct (occurrences e' lines); [done|]. simplify_eq. lia.
    + intros [Hocc [n Hn]]. exists (e, n). split; [done|].
      apply list_elem_of_filter. split; [|by apply elem_of_map_to_list].
      simpl. unfold m in Hn. rewrite counter_spec in Hn.
      destruct (occurrences e lines); [done|]. simplify_eq. lia.
Qed.

Lemma add_edge_length e g :
  length (g_nodes (add_edge e g)) ≤ length (g_nodes g) + 2.
Proof.
  assert (Hadd : ∀ n h, length (g_nodes (add_node n h)) ≤ S (length (g_nodes h))).
  { intros n h. unfold add_node. case_decide; simpl; [lia|].
    rewrite length_app. simpl. lia. }
  pose proof (Hadd e.1 g). pose proof (Hadd e.2 (add_node e.1 g)).
  unfold add_edge. case_decide; simpl; lia.
Qed.

Lemma add_edges_from_length es g :
  length (g_nodes (add_edges_from es g))
  ≤ length (g_nodes g) + 2 * length es.
Proof.
  unfold add_edges_from. revert g.
  induction es as [|e es IH]; intros g; simpl; [lia|].
  pose proof (IH (add_edge e g)). pose proof (add_edge_length e g). lia.
Qed.

Lemma elem_of_endpoints (s : gset edge) x :
  x ∈ endpoints s ↔ ∃ e, e ∈ s ∧ (x = e.1 ∨ x = e.2).
Proof.
  unfold endpoints. rewrite elem_of_union, !elem_of_map. split.
  - intros [(e & ? & ?)|(e & ? & ?)]; exists e; tauto.
  - intros (e & ? & [?|?]); [left|right]; by exists e.
Qed.

(** The counts read off the graph built from the enumeration of an edge
    set without self-loops. *)
Lemma graph_counts (iter : set_order) (s : gset edge) :
  valid_order iter → (∀ u, (u, u) ∉ s) →
  let g := add_edges_from (iter _ _ _ s) empty_graph in
  length (iter _ _ _ s) = size s ∧
  length (g_nodes g) = size (endpoints s) ∧
  length (g_nodes g) ≤ 2 * size s ∧
  (1 ≤ size s → 2 ≤ length (g_nodes g)).
Proof.
  intros Hiter Hloops g.
  pose proof (Hiter _ _ _ s) as Hperm.
  assert (Hlen : length (iter _ _ _ s) = size s).
  { by rewrite Hperm. }
  destruct (add_edges_from_NoDup (iter _ _ _ s) empty_graph) as [Hnd _];
    [constructor..|].
  assert (Hnodes : ∀ x, x ∈ g_nodes g ↔ x ∈ endpoints s).
  { intros x. unfold g. rewrite add_edges_from_nodes, elem_of_endpoints.
    setoid_rewrite Hperm. setoid_rewrite elem_of_elements.
    split; [intros [?%elem_of_nil|?]; done|by right]. }
  split_and!; [done| | |].
  - unfold size at 1, set_size. simpl.
    apply Permutation_length, NoDup_Permutation;
      [done|apply NoDup_elements|].
    intros x. by rewrite elem_of_elements.
  - pose proof (add_edges_from_length (iter _ _ _ s) empty_graph) as Hle.
    fold g in Hle. simpl in Hle. lia.
  - intros Hsize.
    destruct (decide (s = ∅)) as [->|Hne].
    { rewrite size_empty in Hsize. lia. }
    apply set_choose_L in Hne as [[u v] Huv].
    assert (Hne : u ≠ v) by (intros ->; by apply (Hloops v)).
    assert (Hsub : [u; v] ⊆+ g_nodes g).
    { apply NoDup_submseteq.
      - apply NoDup_cons. split; [set_solver|apply NoDup_singleton].
      - intros x Hx. apply Hnodes, elem_of_endpoints. exists (u, v).
        split; [done|]. set_solver. }
    by apply submseteq_length in Hsub.
Qed.

(** X13: the parent-child analysis returns its statistics together with
    the cycles.  The total is the number of distinct parent-child edges;
    the concepts counted are the end points of these edges, at most two
    per edge and at least two when there is an edge; the self-loops
    counted are the pairs (concept, code) of every code; and the
    duplicates counted are the edges of either category, broader-than
    included, that two records or more orient to. *)
Theorem parent_child_statistics_spec (iter : set_order) (lines : list str) :
  valid_order iter →
  ∃ cs st,
    parent_child_statistics iter lines = Ok (cs, st) ∧
    analyze_parent_child_relations iter lines = Ok cs ∧
    total_relationships st = size (parent_child_edges (parse_lines lines)) ∧
    number_found st = length cs ∧
    total_concepts st
      = size (endpoints (parent_child_edges (parse_lines lines))) ∧
    total_concepts st ≤ 2 * total_relationships st ∧
    (1 ≤ total_relationships st → 2 ≤ total_concepts st) ∧
    number_of_self_loops st = size (self_loops (parse_lines lines)) ∧
    number_of_duplicate_relationships st = size (duplicated_edges lines).
Proof.
  intros Hiter.
  unfold parent_child_statistics, analyze_parent_child_relations, parse_umls.
  set (pc := parent_child_edges (parse_lines lines)).
  destruct (graph_counts iter pc Hiter (proj1 (edge_sets_loop_free lines)))
    as (Hlen & Hnodes & Hle & Hge).
  destruct (detect_cycles_ok (add_edges_from (iter _ _ _ pc) empty_graph))
    as (cs & u & Hrun & _); [apply add_edges_from_wf, empty_graph_wf|].
  rewrite Hrun. simpl. eexists cs, _. split; [done|]. simpl.
  rewrite Hlen. split_and!; try done. apply count_duplicates_spec.
Qed.

Lemma parent_child_statistics_spec_witness :
  valid_order iter_elements ∧
  ∃ cs st,
    parent_child_statistics iter_elements two_cycles_lines = Ok (cs, st) ∧
    analyze_parent_child_relations iter_elements two_cycles_lines = Ok cs ∧
    total_relationships st
      = size (parent_child_edges (parse_lines two_cycles_lines)) ∧
    number_found st = length cs ∧
    total_concepts st
      = size (endpoints (parent_child_edges (parse_lines two_cycles_lines))) ∧
    total_concepts st ≤ 2 * total_relationships st ∧
    (1 ≤ total_relationships st → 2 ≤ total_concepts st) ∧
    number_of_self_loops st = size (self_loops (parse_lines two_cycles_lines)) ∧
    number_of_duplicate_relationships st
      = size (duplicated_edges two_cycles_lines).
Proof.
  split; [exact iter_elements_valid|].
  exact (parent_child_statistics_spec iter_elements two_cycles_lines
           iter_elements_valid).
Defined.

(** X14: the broader-than analysis returns its statistics together with
    the violations.  The total is the number of distinct broader-than
    edges; the concepts counted are the end points of these edges, at
    most two per edge and at least two when there is an edge; the
    self-loops and the duplicates counted are those of the whole file,
    the same numbers as in the parent-child statistics. *)
Theorem broader_than_statistics_spec (iter : set_order) (lines : list str) :
  valid_order iter →
  ∃ vs st,
    broader_than_statistics iter lines = Ok (vs, st) ∧
    analyze_broader_than_relations iter lines = Ok vs ∧
    total_relationships st = size (broader_than_edges (parse_lines lines)) ∧
    number_found st = length vs ∧
    total_concepts st
      = size (endpoints (broader_than_edges (parse_lines lines))) ∧
    total_concepts st ≤ 2 * total_relationships st ∧
    (1 ≤ total_relationships st → 2 ≤ total_concepts st) ∧
    number_of_self_loops st = size (self_loops (parse_lines lines)) ∧
    number_of_duplicate_relationships st = size (duplicated_edges lines).
Proof.
  intros Hiter.
  unfold broader_than_statistics, analyze_broader_than_relations, parse_umls.
  set (bt := broader_than_edges (parse_lines lines)).
  destruct (graph_counts iter bt Hiter (proj2 (edge_sets_loop_free lines)))
    as (Hlen & Hnodes & Hle & Hge).
  destruct (detect_violations_ok (add_edges_from (iter _ _ _ bt) empty_graph))
    with (iter := iter) as (vs & Hrun & _);
    [apply add_edges_from_wf, empty_graph_wf|done|].
  rewrite Hrun. simpl. eexists vs, _. split; [done|]. simpl.
  rewrite Hlen. split_and!; try done. apply count_duplicates_spec.
Qed.

Lemma broader_than_statistics_spec_witness :
  valid_order iter_elements ∧
  ∃ vs st,
    broader_than_statistics iter_elements diamond_lines = Ok (vs, st) ∧
    analyze_broader_than_relations iter_elements diamond_lines = Ok vs ∧
    total_relationships st
      = size (broader_than_edges (parse_lines diamond_lines)) ∧
    number_found st = length vs ∧
    total_concepts st
      = size (endpoints (broader_than_edges (parse_lines diamond_lines))) ∧
    total_concepts st ≤ 2 * total_relationships st ∧
    (1 ≤ total_relationships st → 2 ≤ total_concepts st) ∧
    number_of_self_loops st = size (self_loops (parse_lines diamond_lines)) ∧
    number_of_duplicate_relationships st
      = size (duplicated_edges diamond_lines).
Proof.
  split; [exact iter_elements_valid|].
  exact (broader_than_statistics_spec iter_elements diamond_lines
           iter_elements_valid).
Defined.
